(** * A* search over weighted graphs: the search loop and its benchmark harness

    A shallow embedding of [src/main.cpp]: the priority-queue driven loop of
    [runAStar] (lines 131-173), the per-run bookkeeping (lines 175-186), the
    aggregation over [NUM_RUNS] runs (lines 123-129 and 189-200), the
    Euclidean heuristic (lines 115-119) and what [readGraphFromFile] hands
    over for a file that parses (lines 39-81; edges enter the adjacency
    structure in lines 71-77).

    Modelling decisions.
    - [double] is a type with a comparison, a greatest element and an
      addition (the class [Cost]).  Termination, the counters, the
      staleness invariant, the unreachable case and the harness are proved
      from the laws of the order alone ([OrderLaws]), so they hold however
      sums are rounded.  Only the optimality of the returned cost uses exact
      addition ([CostLaws]); rounding, NaN and signed zeros are outside the
      model there.  Sums of integer-valued doubles below 2^53 are exact on
      the hardware as well: that is the instance [zcost] of the concrete
      runs.  The reals with an infinity ([rcost]) carry the square root of
      the Euclidean heuristic.
    - [std::priority_queue<State, vector<State>, CompareState>] is a
      parameter (the class [PriorityQueue]): its code is the C++ standard
      library's, not this repository's.  Only its contract is assumed: the
      element returned by [top] is one that [CompareState] ranks below no
      other, and [push]/[pop] add and remove exactly one element.  How
      entries of equal [f] are ordered is left to the instance.
    - [vector] subscripts out of range are undefined behaviour in C++:
      the model stops with [Undef] / [Undefined] there.
    - the [int] counters are natural numbers.  [nodesExpanded] is bounded by
      the number of nodes and [steps] by one plus the number of adjacency
      entries (both proved below), so they stay in range of [int] whenever
      a hundred times that bound does.
    - the [while] loop is run with fuel; [search_fuel] is shown to be
      enough for every well-formed graph.
    - the steady clock is an input of the harness: [clock run] is the
      number of nanoseconds measured around run number [run]. *)

From Stdlib Require Import ZArith QArith Rbase R_sqrt Rgeom Lra Lia.
From stdpp Require Import base option list sorting.

(** ** Costs: the model of [double] *)

Class Cost (C : Type) := {
  czero : C;                 (* 0.0 *)
  cinf : C;                  (* numeric_limits<double>::infinity() *)
  cminus1 : C;               (* -1, the unreachable sentinel *)
  cadd : C → C → C;          (* a + b *)
  cltb : C → C → bool;       (* a < b *)
  ceqb : C → C → bool;       (* a == b *)
}.

Definition clt `{Cost C} (a b : C) : Prop := cltb a b = true.
Definition cle `{Cost C} (a b : C) : Prop := cltb b a = false.

(** The order and its top element: the laws of the doubles that are not NaN,
    read up to the sign of zero.  Nothing is assumed of [+] here, so what is
    proved from these laws alone holds whatever way sums are rounded. *)
Class OrderLaws (C : Type) `{Cost C} : Prop := {
  ceqb_eq a b : ceqb a b = true ↔ a = b;
  clt_irrefl a : cltb a a = false;
  clt_trans a b c : clt a b → clt b c → clt a c;
  clt_trichotomy a b : clt a b ∨ a = b ∨ clt b a;
  cinf_top a : cle a cinf;
  czero_finite : clt czero cinf;
}.

(** Exact addition, and the sign of the sentinel: what the optimality of
    the result rests on. *)
Class CostLaws (C : Type) `{Cost C} : Prop := {
  cost_order :: OrderLaws C;
  cminus1_negative : clt cminus1 czero;
  cadd_comm a b : cadd a b = cadd b a;
  cadd_assoc a b c : cadd a (cadd b c) = cadd (cadd a b) c;
  cadd_zero_r a : cadd a czero = a;
  cadd_finite a b : clt a cinf → clt b cinf → clt (cadd a b) cinf;
  cadd_mono_l a b c : cle a b → cle (cadd a c) (cadd b c);
  cadd_cancel_r a b c : clt c cinf → cle (cadd a c) (cadd b c) → cle a b;
}.

(** ** Queue entries and their comparator (main.cpp:15-26) *)

Record State (C : Type) := mkState {
  node : nat;
  g : C;     (* cost from start to this node *)
  f : C;     (* g + h *)
}.
Arguments mkState {C} _ _ _.
Arguments node {C} _.
Arguments g {C} _.
Arguments f {C} _.

(** [CompareState a b] is [a.f > b.f]: smaller [f] has higher priority. *)
Definition CompareState `{Cost C} (a b : State C) : bool := cltb (f b) (f a).

(** ** The priority queue the loop is written against

    [pq_contents] is the abstraction function of the contract; the loop
    never calls it. *)

Class PriorityQueue (C : Type) `{Cost C} (PQ : Type) := {
  pq_new : PQ;                             (* priority_queue<...> open; *)
  pq_push : State C → PQ → PQ;              (* open.push(e) *)
  pq_is_empty : PQ → bool;                 (* open.empty() *)
  pq_top : PQ → option (State C);          (* open.top(), undefined on empty *)
  pq_pop : PQ → PQ;                        (* open.pop() *)
  pq_contents : PQ → list (State C);
  pq_contents_new : pq_contents pq_new = [];
  pq_contents_push e q : pq_contents (pq_push e q) ≡ₚ e :: pq_contents q;
  pq_is_empty_spec q : pq_is_empty q = true ↔ pq_contents q = [];
  pq_top_spec q :
    pq_contents q ≠ [] →
    ∃ e, pq_top q = Some e ∧
         pq_contents q ≡ₚ e :: pq_contents (pq_pop q) ∧
         ∀ x, x ∈ pq_contents q → CompareState e x = false;
}.

(** ** Graphs (main.cpp:29-36; the [name] is only printed) *)

Record GraphData (C : Type) := mkGraph {
  numNodes : nat;
  adjacencyList : list (list (nat * C));
  coordinates : list (C * C);
  startNode : nat;
  goalNode : nat;
}.
Arguments mkGraph {C} _ _ _ _ _.
Arguments numNodes {C} _.
Arguments adjacencyList {C} _.
Arguments coordinates {C} _.
Arguments startNode {C} _.
Arguments goalNode {C} _.

(** What [readGraphFromFile] hands over: one adjacency vector per node and
    every index in range. *)
Record wf_graph {C} (G : GraphData C) : Prop := {
  wf_adj_length : length (adjacencyList G) = numNodes G;
  wf_start : startNode G < numNodes G;
  wf_goal : goalNode G < numNodes G;
  wf_nbr u adj v w :
    adjacencyList G !! u = Some adj → (v, w) ∈ adj → v < numNodes G;
}.

Definition edge {C} (G : GraphData C) (u v : nat) (w : C) : Prop :=
  ∃ adj, adjacencyList G !! u = Some adj ∧ (v, w) ∈ adj.

(** Every weight is a non-negative number (so not the infinity). *)
Definition nonneg_weights `{Cost C} (G : GraphData C) : Prop :=
  ∀ u v w, edge G u v w → cle czero w ∧ clt w cinf.

(** Number of adjacency entries. *)
Definition num_entries {C} (G : GraphData C) : nat :=
  sum_list (length <$> adjacencyList G).

(** Lines 75-76: an edge read from the file is entered at both ends.
    (An index out of range is undefined behaviour there; [alter] leaves the
    list alone.) *)
Definition add_edge {C} (adj : list (list (nat * C))) (e : nat * nat * C)
    : list (list (nat * C)) :=
  let '(u, v, w) := e in
  alter (λ l, l ++ [(u, w)]) v (alter (λ l, l ++ [(v, w)]) u adj).

(** Lines 55 and 71-77: the adjacency structure of a list of edges. *)
Definition build_adjacency {C} (n : nat) (edges : list (nat * nat * C))
    : list (list (nat * C)) :=
  foldl add_edge (replicate n []) edges.

(** Lines 39-81 on a file that opens and parses: [n] nodes, one pair of
    coordinates for each, the start and goal indices, and the edge triples
    in file order.  (The [name] is only printed; a file that does not open,
    or does not parse, is outside this model.) *)
Definition readGraphFromFile {C} (n : nat) (coords : list (C * C))
    (s t : nat) (edges : list (nat * nat * C)) : GraphData C :=
  mkGraph n (build_adjacency n edges) coords s t.

(** [walk G s v c]: some walk leads from [s] to [v], and adding its weights
    one after the other the way the loop does ([newG = cur.g + w]) gives [c]. *)
Inductive walk `{Cost C} (G : GraphData C) (s : nat) : nat → C → Prop :=
  | walk_here : walk G s s czero
  | walk_step u v c w : walk G s u c → edge G u v w → walk G s v (cadd c w).

Definition reachable_from `{Cost C} (G : GraphData C) (s t : nat) : Prop :=
  ∃ c, walk G s t c.

Definition shortest_dist `{Cost C} (G : GraphData C) (s t : nat) (d : C) : Prop :=
  walk G s t d ∧ ∀ c, walk G s t c → cle d c.

(** A heuristic is consistent when it obeys the triangle inequality along
    every edge, and admissible when it never overestimates what is left to
    the goal.  Its values at the nodes are numbers: never the infinity. *)
Definition consistent `{Cost C} (G : GraphData C) (h : nat → C) : Prop :=
  ∀ u v w, edge G u v w → cle (h u) (cadd w (h v)).


Definition finite_heuristic `{Cost C} (G : GraphData C) (h : nat → C) : Prop :=
  ∀ v, v < numNodes G → clt (h v) cinf.

(** ** The search loop (main.cpp:133-173) *)

(** Ghost record of what an iteration did; the loop never reads it. *)
Inductive event (C : Type) :=
  | EvPush (e : State C)      (* open.push(e) *)
  | EvStale (e : State C)     (* e popped and discarded as stale *)
  | EvExpand (e : State C).   (* e popped and processed as current *)
Arguments EvPush {C} _.
Arguments EvStale {C} _.
Arguments EvExpand {C} _.

Inductive outcome (A : Type) :=
  | Done (a : A)
  | Undefined        (* a subscript out of range, or top() of an empty queue *)
  | OutOfFuel.
Arguments Done {A} _.
Arguments Undefined {A}.
Arguments OutOfFuel {A}.

Section Search.
Context {C : Type} `{Cost C} {PQ : Type} `{!PriorityQueue C PQ}.

Record SearchState := mkSearch {
  open : PQ;
  dist : list C;
  closed : list bool;
  nodesExpanded : nat;
  steps : nat;
}.

Variable G : GraphData C.
Variable heuristic : nat → C.

(** Lines 134-143.  [dist[start] = 0.0] needs [start] in range. *)
Definition init_state : option SearchState :=
  if decide (startNode G < numNodes G) then
    Some {| open := pq_push (mkState (startNode G) czero (heuristic (startNode G))) pq_new;
            dist := <[startNode G := czero]> (replicate (numNodes G) cinf);
            closed := replicate (numNodes G) false;
            nodesExpanded := 0;
            steps := 0 |}
  else None.

(** Lines 164-172: the neighbours of [cur], in adjacency order.  [clo] is
    the closed vector, which this inner loop only reads. *)
Fixpoint explore (clo : list bool) (cur : State C) (adj : list (nat * C))
    (d : list C) (q : PQ) : option (list C * PQ * list (event C)) :=
  match adj with
  | [] => Some (d, q, [])
  | (nbr, w) :: adj' =>
      let newG := cadd (g cur) w in
      dn ← d !! nbr;
      if cltb newG dn then
        c ← clo !! nbr;
        if negb c then
          let e := mkState nbr newG (cadd newG (heuristic nbr)) in
          '(d', q', evs) ← explore clo cur adj' (<[nbr := newG]> d) (pq_push e q);
          Some (d', q', EvPush e :: evs)
        else explore clo cur adj' d q
      else explore clo cur adj' d q
  end.

Inductive step_result :=
  | Exit                          (* open.empty(): the loop condition fails *)
  | Continue (s : SearchState)    (* next iteration *)
  | Break (s : SearchState)       (* goal reached *)
  | Undef.

(** One iteration of the [while] loop, lines 145-173. *)
Definition step (s : SearchState) : step_result * list (event C) :=
  if pq_is_empty (open s) then (Exit, []) else
  match pq_top (open s) with
  | None => (Undef, [])
  | Some cur =>
      let rest := pq_pop (open s) in
      let steps' := S (steps s) in
      match dist s !! node cur with
      | None => (Undef, [])
      | Some dc =>
          if cltb dc (g cur) then
            (Continue (mkSearch rest (dist s) (closed s) (nodesExpanded s) steps'),
             [EvStale cur])
          else
            let expanded' := S (nodesExpanded s) in
            if decide (node cur = goalNode G) then
              (Break (mkSearch rest (dist s) (closed s) expanded' steps'),
               [EvExpand cur])
            else if decide (node cur < length (closed s)) then
              let clo := <[node cur := true]> (closed s) in
              match adjacencyList G !! node cur with
              | None => (Undef, [])
              | Some adj =>
                  match explore clo cur adj (dist s) rest with
                  | None => (Undef, [])
                  | Some (d', q', evs) =>
                      (Continue (mkSearch q' d' clo expanded' steps'),
                       EvExpand cur :: evs)
                  end
              end
            else (Undef, [])
      end
  end.

(** The [while] loop; the trace lists the events in order. *)
Fixpoint loop (fuel : nat) (s : SearchState)
    : outcome (SearchState * list (event C)) :=
  match fuel with
  | 0 => OutOfFuel
  | S fuel' =>
      match step s with
      | (Exit, _) => Done (s, [])
      | (Break s', evs) => Done (s', evs)
      | (Continue s', evs) =>
          match loop fuel' s' with
          | Done (sf, tr) => Done (sf, evs ++ tr)
          | o => o
          end
      | (Undef, _) => Undefined
      end
  end.

Definition search_fuel : nat := num_entries G + 2.

(** What one run leaves behind besides the time. *)
Record SearchResult := mkResult {
  res_pathCost : C;
  res_nodesExpanded : nat;
  res_steps : nat;
}.

(** Line 185: [dist[goal] != infinity ? dist[goal] : -1]. *)
Definition path_cost_of (s : SearchState) : option C :=
  dg ← dist s !! goalNode G;
  Some (if negb (ceqb dg cinf) then dg else cminus1).

(** The first event of every run is the push of line 139. *)
Definition init_events : list (event C) :=
  [EvPush (mkState (startNode G) czero (heuristic (startNode G)))].

(** One pass through the body of the [for] loop, timing left out:
    final state and trace. *)
Definition run_search (fuel : nat) : outcome (SearchState * list (event C)) :=
  match init_state with
  | None => Undefined
  | Some s0 =>
      match loop fuel s0 with
      | Done (sf, tr) => Done (sf, init_events ++ tr)
      | o => o
      end
  end.

Definition search (fuel : nat) : outcome SearchResult :=
  match run_search fuel with
  | Done (sf, _) =>
      match path_cost_of sf with
      | Some pc => Done (mkResult pc (nodesExpanded sf) (steps sf))
      | None => Undefined
      end
  | Undefined => Undefined
  | OutOfFuel => OutOfFuel
  end.

(** ** The benchmark harness (main.cpp:123-129, 175-200) *)

Record Totals := mkTotals {
  totalNanoseconds : Z;
  totalNodesExpanded : nat;
  totalSteps : nat;
  pathCost : C;
}.

(** Lines 124-127. *)
Definition init_totals : Totals := mkTotals 0 0 0 czero.

(** The body of the [for] loop for run number [run].  [clock run] is
    [duration.count()].  The second component is ghost: the final search
    state of every run so far, latest last. *)
Definition run_body (clock : nat → Z) (run : nat)
    (acc : Totals * list SearchState) : outcome (Totals * list SearchState) :=
  let '(t, log) := acc in
  match run_search search_fuel with
  | Done (sf, _) =>
      let ns := (totalNanoseconds t + clock run)%Z in
      let ne := totalNodesExpanded t + nodesExpanded sf in
      let st := totalSteps t + steps sf in
      if decide (run = 0) then
        match path_cost_of sf with
        | Some pc => Done (mkTotals ns ne st pc, log ++ [sf])
        | None => Undefined
        end
      else Done (mkTotals ns ne st (pathCost t), log ++ [sf])
  | Undefined => Undefined
  | OutOfFuel => OutOfFuel
  end.

(** [for (run = ...; run < ...; run++)] with [n] iterations left. *)
Fixpoint for_runs (clock : nat → Z) (n : nat) (run : nat)
    (acc : Totals * list SearchState) : outcome (Totals * list SearchState) :=
  match n with
  | 0 => Done acc
  | S n' =>
      match run_body clock run acc with
      | Done acc' => for_runs clock n' (S run) acc'
      | o => o
      end
  end.

(** What is printed, lines 189-200. *)
Record Report := mkReport {
  avgTimeNs : Q;
  avgNodesExpanded : Q;
  avgSteps : Q;
  avgTimeMs : Q;       (* "Average execution time" in ms *)
  minTimeMs : Q;       (* "Min execution time" in ms *)
  rep_pathCost : C;
}.

Definition make_report (runs : nat) (t : Totals) : Report :=
  let n := inject_Z (Z.of_nat runs) in
  let avg_ns := (inject_Z (totalNanoseconds t) / n)%Q in
  {| avgTimeNs := avg_ns;
     avgNodesExpanded := (inject_Z (Z.of_nat (totalNodesExpanded t)) / n)%Q;
     avgSteps := (inject_Z (Z.of_nat (totalSteps t)) / n)%Q;
     avgTimeMs := (avg_ns / 1000000)%Q;
     minTimeMs := (inject_Z (totalNanoseconds t) / (n * 1000000))%Q;
     rep_pathCost := pathCost t |}.

(** The harness for a given number of runs. *)
Definition benchmark (runs : nat) (clock : nat → Z)
    : outcome (Report * Totals * list SearchState) :=
  match for_runs clock runs 0 (init_totals, []) with
  | Done (t, log) => Done (make_report runs t, t, log)
  | Undefined => Undefined
  | OutOfFuel => OutOfFuel
  end.

End Search.

(** The reference: Dijkstra's algorithm, which is this search with the
    heuristic that is zero everywhere. *)
Definition dijkstra {C} `{Cost C} {PQ} `{!PriorityQueue C PQ}
    (G : GraphData C) (fuel : nat) : outcome SearchResult :=
  search G (λ _, czero) fuel.

(** Sum of the measured durations of runs [run], ..., [run + n - 1]. *)
Definition total_time (clock : nat → Z) (run n : nat) : Z :=
  foldr Z.add 0%Z (clock <$> seq run n).

(** The least of the measured durations of runs [0], ..., [n - 1]: what a
    minimum over the runs would be. *)
Definition least_time (clock : nat → Z) (n : nat) : Z :=
  foldr Z.min (clock 0) (clock <$> seq 0 n).

(** Line 123. *)
Definition NUM_RUNS : nat := 100.

(** The lambda [runAStar] of lines 122-202. *)
Definition runAStar {C} `{Cost C} {PQ} `{!PriorityQueue C PQ}
    (G : GraphData C) (heuristic : nat → C) (clock : nat → Z)
    : outcome (Report * Totals * list (SearchState (PQ:=PQ))) :=
  benchmark G heuristic NUM_RUNS clock.

(** ** Reading a trace *)

Definition pushes {C} (tr : list (event C)) : list (State C) :=
  omap (λ ev, match ev with EvPush e => Some e | _ => None end) tr.

Definition popped {C} (tr : list (event C)) : list (State C) :=
  omap (λ ev, match ev with
              | EvStale e | EvExpand e => Some e
              | EvPush _ => None
              end) tr.

Definition stale_pops {C} (tr : list (event C)) : list (State C) :=
  omap (λ ev, match ev with EvStale e => Some e | _ => None end) tr.

Definition expanded {C} (tr : list (event C)) : list nat :=
  omap (λ ev, match ev with EvExpand e => Some (node e) | _ => None end) tr.

(** The entries that were expanded, in the order of their expansion. *)
Definition expansions {C} (tr : list (event C)) : list (State C) :=
  omap (λ ev, match ev with EvExpand e => Some e | _ => None end) tr.

(** [staleb d e]: the test of line 150, [e.g > dist[e.node]]. *)
Definition staleb `{Cost C} (d : list C) (e : State C) : bool :=
  match d !! node e with
  | Some dc => cltb dc (g e)
  | None => false
  end.

Definition live `{Cost C} (d : list C) (e : State C) : Prop := staleb d e = false.

#[export] Instance live_dec `{Cost C} (d : list C) (e : State C) : Decision (live d e).
Proof. unfold live. apply _. Defined.

(** [x] is the least [g] pushed for node [v] in [tr], infinity when none was. *)
Definition min_pushed `{Cost C} (tr : list (event C)) (v : nat) (x : C) : Prop :=
  (∀ e, e ∈ pushes tr → node e = v → cle x (g e)) ∧
  ((x = cinf ∧ ∀ e, e ∈ pushes tr → node e ≠ v) ∨
   (∃ e, e ∈ pushes tr ∧ node e = v ∧ g e = x)).

(** Out-degree of a node in the adjacency structure. *)
Definition degree {C} (G : GraphData C) (v : nat) : nat :=
  length (default [] (adjacencyList G !! v)).

(** Number of nodes whose closed flag is set. *)
Definition num_closed (clo : list bool) : nat :=
  length (filter (λ b, b = true) clo).

(** [improves s s']: the vectors of [s'] are those of [s] with some
    distances lowered and some nodes closed; what was closed in [s] is
    closed in [s'] at the distance it had. *)
Definition improves `{Cost C} {PQ : Type} (s s' : SearchState (C:=C) (PQ:=PQ))
    : Prop :=
  length (dist s') = length (dist s) ∧
  length (closed s') = length (closed s) ∧
  (∀ v x, dist s !! v = Some x → ∃ x', dist s' !! v = Some x' ∧ cle x' x) ∧
  (∀ v, closed s !! v = Some true →
     closed s' !! v = Some true ∧ dist s' !! v = dist s !! v).

(** ** Executions *)

Section Executions.
Context {C : Type} `{Cost C} {PQ : Type} `{!PriorityQueue C PQ}.
Variable G : GraphData C.
Variable heuristic : nat → C.

(** The configurations in which the loop condition is evaluated. *)
Inductive at_loop_head : SearchState → list (event C) → Prop :=
  | head_init s0 :
      init_state G heuristic = Some s0 →
      at_loop_head s0 (init_events G heuristic)
  | head_next s tr s' evs :
      at_loop_head s tr →
      step G heuristic s = (Continue s', evs) →
      at_loop_head s' (tr ++ evs).

(** The configuration left by the [break] of line 159. *)
Definition after_break (s' : SearchState) (tr' : list (event C)) : Prop :=
  ∃ s tr evs, at_loop_head s tr ∧ step G heuristic s = (Break s', evs) ∧
              tr' = tr ++ evs.

(** The configuration in which the loop condition fails. *)
Definition after_exit (s : SearchState) (tr : list (event C)) : Prop :=
  at_loop_head s tr ∧ step G heuristic s = (Exit, []).

Definition visited (s : SearchState) (tr : list (event C)) : Prop :=
  at_loop_head s tr ∨ after_break s tr.

End Executions.

(** ** A concrete cost type: integers with an infinity *)

Inductive zcost := ZFin (z : Z) | ZInf.

Definition zcost_add (a b : zcost) : zcost :=
  match a, b with
  | ZFin x, ZFin y => ZFin (x + y)
  | _, _ => ZInf
  end.

Definition zcost_ltb (a b : zcost) : bool :=
  match a, b with
  | ZFin x, ZFin y => (x <? y)%Z
  | ZFin _, ZInf => true
  | ZInf, _ => false
  end.

Definition zcost_eqb (a b : zcost) : bool :=
  match a, b with
  | ZFin x, ZFin y => (x =? y)%Z
  | ZInf, ZInf => true
  | _, _ => false
  end.

#[export] Instance zcost_cost : Cost zcost :=
  {| czero := ZFin 0; cinf := ZInf; cminus1 := ZFin (-1);
     cadd := zcost_add; cltb := zcost_ltb; ceqb := zcost_eqb |}.

(** ** A concrete queue: an unsorted list, searched for its minimum *)

Fixpoint extract_min `{Cost C} (l : list (State C))
    : option (State C * list (State C)) :=
  match l with
  | [] => None
  | x :: l' =>
      match extract_min l' with
      | None => Some (x, [])
      | Some (m, rest) =>
          if CompareState x m then Some (m, x :: rest) else Some (x, l')
      end
  end.

Definition list_top `{Cost C} (l : list (State C)) : option (State C) :=
  fst <$> extract_min l.

Definition list_pop `{Cost C} (l : list (State C)) : list (State C) :=
  match extract_min l with
  | Some (_, rest) => rest
  | None => []
  end.

Definition list_is_empty {C} (l : list (State C)) : bool :=
  match l with [] => true | _ => false end.

(** ** Real costs and the Euclidean heuristic (main.cpp:115-119)

    The heuristic takes a square root, so it is stated over the reals
    with an infinity.  Coordinates that are not numbers, or a node out of
    range, give NaN or undefined behaviour in the source; [euclidean] says
    infinity there, and [wf_coordinates] rules these cases out. *)

Inductive rcost := RFin (x : R) | RInf.

Definition rcost_add (a b : rcost) : rcost :=
  match a, b with
  | RFin x, RFin y => RFin (x + y)
  | _, _ => RInf
  end.

Definition rcost_ltb (a b : rcost) : bool :=
  match a, b with
  | RFin x, RFin y => if Rlt_dec x y then true else false
  | RFin _, RInf => true
  | RInf, _ => false
  end.

Definition rcost_eqb (a b : rcost) : bool :=
  match a, b with
  | RFin x, RFin y => if Req_dec_T x y then true else false
  | RInf, RInf => true
  | _, _ => false
  end.

#[export] Instance rcost_cost : Cost rcost :=
  {| czero := RFin 0; cinf := RInf; cminus1 := RFin (-1);
     cadd := rcost_add; cltb := rcost_ltb; ceqb := rcost_eqb |}.

(** The lambda [heuristic]: the straight-line distance from [node] to
    [goal]. *)
Definition euclidean (coords : list (rcost * rcost)) (goal node : nat) : rcost :=
  match coords !! node, coords !! goal with
  | Some (RFin x, RFin y), Some (RFin gx, RFin gy) =>
      let dx := (x - gx)%R in
      let dy := (y - gy)%R in
      RFin (sqrt (dx * dx + dy * dy))
  | _, _ => RInf
  end.

(** One pair of numbers per node. *)
Definition wf_coordinates (G : GraphData rcost) : Prop :=
  length (coordinates G) = numNodes G ∧
  ∀ i p, coordinates G !! i = Some p → ∃ x y, p = (RFin x, RFin y).

(** No edge is shorter than the straight line between its ends. *)
Definition euclidean_weights (G : GraphData rcost) : Prop :=
  ∀ u v w, edge G u v w → cle (euclidean (coordinates G) v u) w.

(** ** Concrete inputs

    Integer weights, the list queue.  [rtriangle] is the 3-4-5 triangle with
    a direct edge of weight 8 from start to goal; [rtriangle_h] is the
    Euclidean distance to the goal, exact on these coordinates. *)

Definition rtriangle : GraphData zcost :=
  mkGraph 3
    (build_adjacency 3 [(0, 1, ZFin 3); (1, 2, ZFin 4); (0, 2, ZFin 8)])
    [(ZFin 0, ZFin 0); (ZFin 3, ZFin 0); (ZFin 3, ZFin 4)]
    0 2.

Definition rtriangle_h (v : nat) : zcost :=
  match v with
  | 0 => ZFin 5
  | 1 => ZFin 4
  | _ => ZFin 0
  end.

(** Two nodes and no edge. *)
Definition two_islands : GraphData zcost :=
  mkGraph 2 (build_adjacency 2 []) [(ZFin 0, ZFin 0); (ZFin 1, ZFin 0)] 0 1.

(** One node, start and goal at once. *)
Definition lone_node : GraphData zcost :=
  mkGraph 1 (build_adjacency 1 []) [(ZFin 0, ZFin 0)] 0 0.

(** Node 2 is first reached at cost 5 and then at cost 2: the entry with
    [g = 5] is popped stale before the goal is reached. *)
Definition detour : GraphData zcost :=
  mkGraph 4
    (build_adjacency 4
       [(0, 1, ZFin 1); (0, 2, ZFin 5); (1, 2, ZFin 1); (2, 3, ZFin 10)])
    [(ZFin 0, ZFin 0); (ZFin 1, ZFin 0); (ZFin 2, ZFin 0); (ZFin 12, ZFin 0)]
    0 3.

Definition zero_h (v : nat) : zcost := ZFin 0.

(** Start and goal at the same place and node 1 far away, with weights
    shorter than the straight lines: [misled_h], the Euclidean distance to
    the goal on these coordinates, is not consistent for this graph. *)
Definition misled : GraphData zcost :=
  mkGraph 3
    (build_adjacency 3 [(0, 1, ZFin 1); (1, 2, ZFin 1); (0, 2, ZFin 3)])
    [(ZFin 0, ZFin 0); (ZFin 99, ZFin 0); (ZFin 0, ZFin 0)]
    0 2.

Definition misled_h (v : nat) : zcost :=
  match v with
  | 1 => ZFin 99
  | _ => ZFin 0
  end.

(** A goal index one past the last node. *)
Definition stray_goal : GraphData zcost :=
  mkGraph 2 (build_adjacency 2 [(0, 1, ZFin 1)])
    [(ZFin 0, ZFin 0); (ZFin 1, ZFin 0)] 0 2.

Abbreviation zqueue := (list (State zcost)).

(** The triangle of the specification, over the reals: nodes at (0,0),
    (1,0) and (1,1), edges of weight 1, 1 and 2.5, from node 0 to node 2. *)
Definition spec_triangle : GraphData rcost :=
  mkGraph 3
    (build_adjacency 3
       [(0, 1, RFin 1); (1, 2, RFin 1); (0, 2, RFin (5 / 2))])
    [(RFin 0, RFin 0); (RFin 1, RFin 0); (RFin 1, RFin 1)]
    0 2.

(** A clock that measures [1000 + run] nanoseconds for run number [run]. *)
Definition sample_clock (run : nat) : Z := 1000 + Z.of_nat run.

(** * Proofs *)

(** ** Order and addition on costs *)

Section OrderFacts.
Context `{OrderLaws C}.
Implicit Types a b c : C.

Lemma cle_refl a : cle a a.
Proof. apply clt_irrefl. Qed.

Lemma clt_asym a b : clt a b → cle a b.
Proof.
  intros Hab. unfold cle. destruct (cltb b a) eqn:Hba; [|done].
  pose proof (clt_trans a b a Hab Hba) as Haa.
  unfold clt in Haa. by rewrite clt_irrefl in Haa.
Qed.

Lemma clt_not_cle a b : clt a b → cle b a → False.
Proof. unfold clt, cle. congruence. Qed.

Lemma cle_or_clt a b : cle a b ∨ clt b a.
Proof. unfold cle, clt. destruct (cltb b a); auto. Qed.

Lemma cle_cases a b : cle a b → clt a b ∨ a = b.
Proof.
  intros Hab. destruct (clt_trichotomy a b) as [?|[?|Hba]]; auto.
  destruct (clt_not_cle _ _ Hba Hab).
Qed.

Lemma cle_antisym a b : cle a b → cle b a → a = b.
Proof.
  intros Hab Hba. destruct (cle_cases _ _ Hab) as [Hlt|]; [|done].
  destruct (clt_not_cle _ _ Hlt Hba).
Qed.

Lemma clt_le_trans a b c : clt a b → cle b c → clt a c.
Proof.
  intros Hab Hbc. destruct (cle_cases _ _ Hbc) as [Hlt| ->]; [|done].
  by apply clt_trans with b.
Qed.

Lemma cle_lt_trans a b c : cle a b → clt b c → clt a c.
Proof.
  intros Hab Hbc. destruct (cle_cases _ _ Hab) as [Hlt| ->]; [|done].
  by apply clt_trans with b.
Qed.

Lemma cle_trans a b c : cle a b → cle b c → cle a c.
Proof.
  intros Hab Hbc. destruct (cle_or_clt a c) as [|Hca]; [done|].
  destruct (clt_not_cle _ _ (clt_le_trans _ _ _ Hca Hab) Hbc).
Qed.

Lemma clt_neq a b : clt a b → a ≠ b.
Proof. intros Hab ->. unfold clt in Hab. by rewrite clt_irrefl in Hab. Qed.

Lemma clt_cinf_neq a : clt a cinf ↔ a ≠ cinf.
Proof.
  split; [apply clt_neq|]. intros Hne.
  destruct (cle_cases a cinf (cinf_top a)); [done|contradiction].
Qed.

Lemma ceqb_neq a b : ceqb a b = false ↔ a ≠ b.
Proof.
  pose proof (ceqb_eq a b) as Heq. destruct (ceqb a b); split.
  - done.
  - intros Hne. destruct Hne. by apply Heq.
  - intros _ Hab. apply Heq in Hab. done.
  - done.
Qed.

End OrderFacts.

Section CostFacts.
Context `{CostLaws C}.
Implicit Types a b c : C.

Lemma cadd_zero_l a : cadd czero a = a.
Proof. by rewrite cadd_comm, cadd_zero_r. Qed.

Lemma cadd_mono_r a b c : cle a b → cle (cadd c a) (cadd c b).
Proof. intros. rewrite !(cadd_comm c). by apply cadd_mono_l. Qed.

Lemma cadd_nonneg a w : cle czero w → cle a (cadd a w).
Proof.
  intros Hw. rewrite <- (cadd_zero_r a) at 1. by apply cadd_mono_r.
Qed.

End CostFacts.

(** ** The concrete instances satisfy the contracts *)

#[export] Instance zcost_order : OrderLaws zcost.
Proof.
  split; unfold clt, cle; simpl.
  - intros [x|] [y|]; simpl; split; try done.
    + intros ?%Z.eqb_eq. by subst.
    + intros [= ->]. apply Z.eqb_refl.
  - intros [x|]; simpl; [apply Z.ltb_irrefl|done].
  - intros [x|] [y|] [z|]; simpl; try done.
    rewrite !Z.ltb_lt. lia.
  - intros [x|] [y|]; simpl; auto.
    rewrite !Z.ltb_lt.
    destruct (Z.lt_trichotomy x y) as [?|[->|?]]; auto.
  - by intros [x|].
  - done.
Qed.

#[export] Instance zcost_laws : CostLaws zcost.
Proof.
  split; unfold clt, cle; simpl.
  - apply _.
  - done.
  - intros [x|] [y|]; simpl; try done. f_equal. lia.
  - intros [x|] [y|] [z|]; simpl; try done. f_equal. lia.
  - intros [x|]; simpl; [|done]. f_equal. lia.
  - by intros [x|] [y|].
  - intros [x|] [y|] [z|]; simpl; try done.
    rewrite !Z.ltb_ge. lia.
  - intros [x|] [y|] [z|]; simpl; try done.
    rewrite !Z.ltb_ge. lia.
Qed.

Section ListQueue.
Context `{OrderLaws C}.

Lemma extract_min_spec (l : list (State C)) :
  l ≠ [] →
  ∃ e rest, extract_min l = Some (e, rest) ∧ l ≡ₚ e :: rest ∧
            ∀ x, x ∈ l → CompareState e x = false.
Proof.
  induction l as [|x l IH]; [done|]. intros _. simpl.
  destruct l as [|y l'].
  { exists x, []. simpl. split_and!; [done..|].
    intros z ->%list_elem_of_singleton. apply clt_irrefl. }
  destruct IH as (m & rest & -> & Hperm & Hmin); [done|].
  destruct (CompareState x m) eqn:Hxm.
  - exists m, (x :: rest). split_and!; [done|..].
    + rewrite Hperm. apply Permutation_swap.
    + intros z [->|Hz]%elem_of_cons; [|by apply Hmin].
      by apply clt_asym.
  - exists x, (y :: l'). split_and!; [done..|].
    intros z [->|Hz]%elem_of_cons; [apply clt_irrefl|].
    unfold CompareState in *. eapply cle_trans; [apply Hxm|by apply Hmin].
Qed.

#[export] Instance list_queue : PriorityQueue C (list (State C)).
Proof.
  refine {| pq_new := []; pq_push := cons; pq_is_empty := list_is_empty;
            pq_top := list_top; pq_pop := list_pop; pq_contents := id |}.
  - done.
  - done.
  - by intros [|??].
  - intros l Hl. simpl in *.
    destruct (extract_min_spec l Hl) as (e & rest & Hex & Hperm & Hmin).
    exists e. unfold list_top, list_pop. rewrite Hex. done.
Defined.

End ListQueue.

Section Traces.
Context {C : Type}.
Implicit Types tr : list (event C).

Lemma pushes_app tr1 tr2 : pushes (tr1 ++ tr2) = pushes tr1 ++ pushes tr2.
Proof. apply omap_app. Qed.

Lemma popped_app tr1 tr2 : popped (tr1 ++ tr2) = popped tr1 ++ popped tr2.
Proof. apply omap_app. Qed.

Lemma stale_pops_app tr1 tr2 :
  stale_pops (tr1 ++ tr2) = stale_pops tr1 ++ stale_pops tr2.
Proof. apply omap_app. Qed.

Lemma expanded_app tr1 tr2 : expanded (tr1 ++ tr2) = expanded tr1 ++ expanded tr2.
Proof. apply omap_app. Qed.

Lemma elem_of_pushes tr e : e ∈ pushes tr ↔ EvPush e ∈ tr.
Proof.
  unfold pushes. rewrite list_elem_of_omap. split.
  - intros ([]&?&?); naive_solver.
  - intros ?. by exists (EvPush e).
Qed.

Lemma elem_of_expanded tr v : v ∈ expanded tr ↔ ∃ e, EvExpand e ∈ tr ∧ node e = v.
Proof.
  unfold expanded. rewrite list_elem_of_omap. split.
  - intros ([]&?&?); naive_solver.
  - intros (e&?&<-). by exists (EvExpand e).
Qed.

Lemma popped_length tr :
  length (popped tr) = length (stale_pops tr) + length (expanded tr).
Proof.
  induction tr as [|[e|e|e] tr IH]; simpl; [done|done|..];
    unfold popped, stale_pops, expanded in *; simpl; lia.
Qed.

End Traces.

(** ** The invariant of the loop *)

Lemma NoDup_fmap_filter_mono {A B} (fn : A → B) (P1 P2 : A → Prop)
    `{∀ x, Decision (P1 x)} `{∀ x, Decision (P2 x)} (l : list A) :
  (∀ x, x ∈ l → P1 x → P2 x) →
  NoDup (fn <$> filter P2 l) → NoDup (fn <$> filter P1 l).
Proof.
  induction l as [|x l IH]; [done|]. intros Himp.
  assert (Himp' : ∀ y, y ∈ l → P1 y → P2 y).
  { intros y Hy. apply Himp. by right. }
  rewrite !filter_cons. destruct (decide (P1 x)) as [H1|H1].
  - rewrite decide_True by (apply Himp; [left|done]).
    rewrite !fmap_cons, !NoDup_cons. intros [Hnin Hnd]. split; [|by apply IH].
    intros (y & Hy & [H1y Hyl]%list_elem_of_filter)%list_elem_of_fmap.
    apply Hnin. apply list_elem_of_fmap. exists y. split; [done|].
    apply list_elem_of_filter. split; [by apply Himp'|done].
  - destruct (decide (P2 x)); [|by apply IH].
    rewrite fmap_cons, NoDup_cons. intros [_ ?]. by apply IH.
Qed.


Section Invariants.
Context `{OrderLaws C} {PQ : Type} `{!PriorityQueue C PQ}.
Variable G : GraphData C.
Variable heuristic : nat → C.
Hypothesis Hwf : wf_graph G.

(** What holds of queue, distances, closed flags and trace whenever the
    loop condition is evaluated, and between two neighbours of line 164. *)
Record core_inv (q : PQ) (d : list C) (clo : list bool)
    (tr : list (event C)) : Prop := {
  ci_dist_len : length d = numNodes G;
  ci_closed_len : length clo = numNodes G;
  ci_queue : pushes tr ≡ₚ pq_contents q ++ popped tr;
  ci_push e :
    e ∈ pushes tr →
    node e < numNodes G ∧ clt (g e) cinf ∧
    walk G (startNode G) (node e) (g e);
  ci_min v x : d !! v = Some x → min_pushed tr v x;
  ci_live_nodup : NoDup (node <$> filter (live d) (pq_contents q));
  ci_live_open e : e ∈ pq_contents q → live d e → clo !! node e = Some false;
  ci_front v x :
    d !! v = Some x → clt x cinf → clo !! v = Some false →
    ∃ e, e ∈ pq_contents q ∧ node e = v ∧ g e = x;
  ci_closed v : clo !! v = Some true ↔ v ∈ expanded tr;
  ci_expanded_nodup : NoDup (expanded tr);
  ci_goal_open : clo !! goalNode G = Some false;
  ci_start : ∃ x, d !! startNode G = Some x ∧ cle x czero;
}.

Lemma queue_pushed q d clo tr e :
  core_inv q d clo tr → e ∈ pq_contents q → e ∈ pushes tr.
Proof.
  intros Hci He. rewrite (ci_queue _ _ _ _ Hci). apply elem_of_app. by left.
Qed.

Lemma queue_dist_le q d clo tr e :
  core_inv q d clo tr → e ∈ pq_contents q →
  ∃ x, d !! node e = Some x ∧ cle x (g e).
Proof.
  intros Hci He. pose proof (queue_pushed _ _ _ _ _ Hci He) as Hp.
  destruct (ci_push _ _ _ _ Hci e Hp) as (Hlt & _).
  destruct (lookup_lt_is_Some_2 d (node e)) as [x Hx].
  { by rewrite (ci_dist_len _ _ _ _ Hci). }
  exists x. split; [done|].
  by apply (ci_min _ _ _ _ Hci _ _ Hx).
Qed.

Lemma live_dist_eq q d clo tr e :
  core_inv q d clo tr → e ∈ pq_contents q → live d e →
  d !! node e = Some (g e).
Proof.
  intros Hci He Hlive.
  destruct (queue_dist_le _ _ _ _ _ Hci He) as (x & Hx & Hle).
  rewrite Hx. f_equal. apply cle_antisym; [done|].
  unfold live, staleb in Hlive. by rewrite Hx in Hlive.
Qed.

Lemma core_inv_init s0 :
  init_state G heuristic = Some s0 →
  core_inv (open s0) (dist s0) (closed s0) (init_events G heuristic).
Proof using Type* Hwf.
  unfold init_state. destruct (decide _) as [Hs|]; [|done]. intros [= <-].
  simpl. set (e0 := mkState (startNode G) czero (heuristic (startNode G))).
  assert (Hq : pq_contents (pq_push e0 pq_new) ≡ₚ [e0]).
  { by rewrite pq_contents_push, pq_contents_new. }
  split; simpl.
  - by rewrite length_insert, length_replicate.
  - by rewrite length_replicate.
  - by rewrite Hq.
  - intros e ->%list_elem_of_singleton. simpl.
    split_and!; [done|apply czero_finite|constructor].
  - intros v x Hv. apply list_lookup_insert_Some in Hv as [(<- & <- & _)|[Hne Hv]].
    + split.
      * intros e ->%list_elem_of_singleton _. apply cle_refl.
      * right. exists e0. split_and!; [|done..]. by apply list_elem_of_singleton.
    + apply lookup_replicate in Hv as [-> _]. split.
      * intros e ->%list_elem_of_singleton Hn. by destruct Hne.
      * left. split; [done|]. intros e ->%list_elem_of_singleton. by intros <-.
  - rewrite Hq. rewrite filter_cons, filter_nil.
    destruct (decide _); simpl; repeat constructor; by intros ?%elem_of_nil.
  - intros e He _. rewrite Hq in He. apply list_elem_of_singleton in He as ->.
    simpl. by apply lookup_replicate_2.
  - intros v x Hv Hfin _. exists e0. rewrite Hq.
    apply list_lookup_insert_Some in Hv as [(<- & <- & _)|[Hne Hv]].
    + split_and!; [|done..]. by apply list_elem_of_singleton.
    + apply lookup_replicate in Hv as [-> _]. by apply clt_neq in Hfin.
  - intros v. split.
    + by intros [? _]%lookup_replicate.
    + by intros ?%elem_of_nil.
  - constructor.
  - apply lookup_replicate_2, Hwf.
  - exists czero. split; [|apply cle_refl].
    apply list_lookup_insert_eq. by rewrite length_replicate.
Qed.

Lemma min_pushed_ext tr tr' v x :
  pushes tr' = pushes tr → min_pushed tr v x → min_pushed tr' v x.
Proof. unfold min_pushed. by intros ->. Qed.

(** Line 152: a stale entry is dropped. *)
Lemma core_inv_stale q rest d clo tr cur :
  core_inv q d clo tr →
  pq_contents q ≡ₚ cur :: pq_contents rest →
  staleb d cur = true →
  core_inv rest d clo (tr ++ [EvStale cur]).
Proof.
  intros Hci Hperm Hstale.
  assert (Hpu : pushes (tr ++ [EvStale cur]) = pushes tr).
  { by rewrite pushes_app, app_nil_r. }
  assert (Hex : expanded (tr ++ [EvStale cur]) = expanded tr).
  { by rewrite expanded_app, app_nil_r. }
  assert (Hsub : ∀ e, e ∈ pq_contents rest → e ∈ pq_contents q).
  { intros e He. rewrite Hperm. by right. }
  split; rewrite ?Hpu, ?Hex; try apply Hci.
  - rewrite popped_app. simpl. rewrite (ci_queue _ _ _ _ Hci), Hperm.
    simpl. by rewrite app_assoc, <- Permutation_cons_append.
  - intros v x Hv. eapply min_pushed_ext; [done|]. by eapply ci_min.
  - pose proof (ci_live_nodup _ _ _ _ Hci) as Hnd.
    rewrite Hperm, filter_cons_False in Hnd; [done|].
    unfold live. by rewrite Hstale.
  - intros e He. apply Hci. by apply Hsub.
  - intros v x Hv Hfin Hclo.
    destruct (ci_front _ _ _ _ Hci v x Hv Hfin Hclo) as (e & He & Hn & Hg).
    exists e. split; [|done]. rewrite Hperm in He.
    apply elem_of_cons in He as [->|He]; [|done].
    unfold staleb in Hstale. rewrite Hn, Hv, Hg in Hstale.
    by rewrite clt_irrefl in Hstale.
Qed.

(** Lines 156-161 for a node that is not the goal. *)
Lemma core_inv_expand q rest d clo tr cur :
  core_inv q d clo tr →
  pq_contents q ≡ₚ cur :: pq_contents rest →
  live d cur →
  node cur ≠ goalNode G →
  core_inv rest d (<[node cur := true]> clo) (tr ++ [EvExpand cur]).
Proof.
  intros Hci Hperm Hlive Hgoal.
  assert (Hpu : pushes (tr ++ [EvExpand cur]) = pushes tr).
  { by rewrite pushes_app, app_nil_r. }
  assert (Hex : expanded (tr ++ [EvExpand cur]) = expanded tr ++ [node cur]).
  { by rewrite expanded_app. }
  assert (Hcur : cur ∈ pq_contents q) by (rewrite Hperm; left).
  assert (Hsub : ∀ e, e ∈ pq_contents rest → e ∈ pq_contents q).
  { intros e He. rewrite Hperm. by right. }
  pose proof (ci_live_open _ _ _ _ Hci cur Hcur Hlive) as Hopen.
  pose proof (ci_live_nodup _ _ _ _ Hci) as Hnd.
  rewrite Hperm, filter_cons_True, fmap_cons, NoDup_cons in Hnd by done.
  destruct Hnd as [Hnin Hnd].
  assert (Hlt : node cur < length clo) by (by eapply lookup_lt_Some).
  split; rewrite ?Hpu, ?Hex; try apply Hci.
  - rewrite length_insert. apply Hci.
  - rewrite popped_app. simpl. rewrite (ci_queue _ _ _ _ Hci), Hperm.
    simpl. by rewrite app_assoc, <- Permutation_cons_append.
  - intros v x Hv. eapply min_pushed_ext; [done|]. by eapply ci_min.
  - done.
  - intros e He Hl. rewrite list_lookup_insert_ne.
    + apply Hci; [by apply Hsub|done].
    + intros Heq. apply Hnin. apply list_elem_of_fmap. exists e.
      split; [done|]. by apply list_elem_of_filter.
  - intros v x Hv Hfin Hclo.
    assert (Hne : node cur ≠ v).
    { intros <-. by rewrite list_lookup_insert_eq in Hclo. }
    rewrite list_lookup_insert_ne in Hclo by done.
    destruct (ci_front _ _ _ _ Hci v x Hv Hfin Hclo) as (e & He & Hn & Hg).
    exists e. split; [|done]. rewrite Hperm in He.
    apply elem_of_cons in He as [->|He]; [|done]. by destruct Hne.
  - intros v. rewrite elem_of_app, list_elem_of_singleton.
    destruct (decide (node cur = v)) as [<-|Hne].
    + rewrite list_lookup_insert_eq by done. split; auto.
    + rewrite list_lookup_insert_ne by done.
      rewrite (ci_closed _ _ _ _ Hci).
      split; [auto|]. intros [?| ->]; [done|by destruct Hne].
  - apply NoDup_app. split_and!; [apply Hci| |apply NoDup_singleton].
    intros v Hv ->%list_elem_of_singleton.
    apply (ci_closed _ _ _ _ Hci) in Hv. congruence.
  - rewrite list_lookup_insert_ne by done. apply Hci.
Qed.

(** Lines 168-170: a better route to [nbr] is recorded and pushed. *)
Lemma core_inv_push q d clo tr nbr newG dn :
  core_inv q d clo tr →
  d !! nbr = Some dn →
  clt newG dn →
  clo !! nbr = Some false →
  walk G (startNode G) nbr newG →
  let e := mkState nbr newG (cadd newG (heuristic nbr)) in
  core_inv (pq_push e q) (<[nbr := newG]> d) clo (tr ++ [EvPush e]).
Proof.
  intros Hci Hdn Hlt Hclo Hwalk e.
  assert (Hpu : pushes (tr ++ [EvPush e]) = pushes tr ++ [e]).
  { by rewrite pushes_app. }
  assert (Hex : expanded (tr ++ [EvPush e]) = expanded tr).
  { by rewrite expanded_app, app_nil_r. }
  assert (Hnbr : nbr < length d) by (by eapply lookup_lt_Some).
  assert (Hold : ∀ e', e' ∈ pushes tr → node e' = nbr → clt newG (g e')).
  { intros e' He' Hn. eapply clt_le_trans; [done|].
    by apply (ci_min _ _ _ _ Hci nbr dn Hdn). }
  split; rewrite ?Hpu, ?Hex; try apply Hci.
  - rewrite length_insert. apply Hci.
  - rewrite popped_app, app_nil_r, pq_contents_push. simpl.
    rewrite <- (ci_queue _ _ _ _ Hci). symmetry. apply Permutation_cons_append.
  - intros e' [He'| ->%list_elem_of_singleton]%elem_of_app.
    + by apply Hci.
    + simpl. split_and!; [|by eapply clt_le_trans, cinf_top|done..].
      by rewrite <- (ci_dist_len _ _ _ _ Hci).
  - intros v x Hv. unfold min_pushed. rewrite Hpu.
    apply list_lookup_insert_Some in Hv as [(<- & <- & _)|[Hne Hv]].
    + split.
      * intros e' [He'| ->%list_elem_of_singleton]%elem_of_app Hn.
        -- by apply clt_asym, Hold.
        -- apply cle_refl.
      * right. exists e. split_and!; [|done..].
        apply elem_of_app. right. by apply list_elem_of_singleton.
    + destruct (ci_min _ _ _ _ Hci v x Hv) as [Hle Hex'].
      split.
      * intros e' [He'| ->%list_elem_of_singleton]%elem_of_app Hn.
        -- by apply Hle.
        -- by destruct Hne.
      * destruct Hex' as [[-> Hno]|(e' & He' & Hn & Hg)].
        -- left. split; [done|].
           intros e' [He'| ->%list_elem_of_singleton]%elem_of_app.
           ++ by apply Hno.
           ++ done.
        -- right. exists e'. split_and!; [|done..]. apply elem_of_app. by left.
  - rewrite pq_contents_push.
    assert (Hle : live (<[nbr:=newG]> d) e).
    { unfold live, staleb. simpl. rewrite list_lookup_insert_eq by done.
      apply clt_irrefl. }
    rewrite filter_cons_True, fmap_cons, NoDup_cons by done. split.
    + intros (e' & Hn & [Hl He']%list_elem_of_filter)%list_elem_of_fmap.
      simpl in Hn. unfold live, staleb in Hl.
      rewrite <- Hn, list_lookup_insert_eq in Hl by done.
      pose proof (Hold e' (queue_pushed _ _ _ _ _ Hci He') (eq_sym Hn)) as Hc.
      unfold clt in Hc. congruence.
    + eapply NoDup_fmap_filter_mono; [|apply (ci_live_nodup _ _ _ _ Hci)].
      intros e' He' Hl. unfold live, staleb in *.
      destruct (decide (node e' = nbr)) as [Hn|Hn].
      * rewrite Hn, list_lookup_insert_eq in Hl by done.
        pose proof (Hold e' (queue_pushed _ _ _ _ _ Hci He') Hn) as Hc.
        unfold clt in Hc. congruence.
      * by rewrite list_lookup_insert_ne in Hl.
  - intros e' He' Hl. rewrite pq_contents_push in He'.
    apply elem_of_cons in He' as [->|He']; [done|].
    apply Hci; [done|]. unfold live, staleb in *.
    destruct (decide (node e' = nbr)) as [Hn|Hn].
    + rewrite Hn, list_lookup_insert_eq in Hl by done.
      pose proof (Hold e' (queue_pushed _ _ _ _ _ Hci He') Hn) as Hc.
      unfold clt in Hc. congruence.
    + by rewrite list_lookup_insert_ne in Hl.
  - intros v x Hv Hfin Hc.
    apply list_lookup_insert_Some in Hv as [(<- & <- & _)|[Hne Hv]].
    + exists e. split; [|done]. rewrite pq_contents_push. by left.
    + destruct (ci_front _ _ _ _ Hci v x Hv Hfin Hc) as (e' & He' & ?).
      exists e'. split; [|done]. rewrite pq_contents_push. by right.
  - destruct (ci_start _ _ _ _ Hci) as (x & Hx & Hx0).
    destruct (decide (nbr = startNode G)) as [->|Hne].
    + exists newG. rewrite list_lookup_insert_eq by done. split; [done|].
      assert (x = dn) as -> by congruence.
      eapply cle_trans; [by apply clt_asym|done].
    + exists x. by rewrite list_lookup_insert_ne.
Qed.

(** The inner loop of lines 164-172 is defined on every adjacency vector
    whose indices are in range, keeps the invariant, and only pushes. *)
Lemma explore_core adj : ∀ clo cur d q tr,
  core_inv q d clo tr →
  walk G (startNode G) (node cur) (g cur) →
  (∀ v w, (v, w) ∈ adj → edge G (node cur) v w) →
  ∃ d' q' evs,
    explore heuristic clo cur adj d q = Some (d', q', evs) ∧
    core_inv q' d' clo (tr ++ evs) ∧
    popped evs = [] ∧ expanded evs = [] ∧
    length (pushes evs) ≤ length adj ∧
    (∀ e, e ∈ pushes evs → clo !! node e = Some false).
Proof using Type* Hwf.
  induction adj as [|[nbr w] adj IH]; intros clo cur d q tr Hci Hwalk Hadj.
  { exists d, q, []. rewrite app_nil_r. simpl. split_and!; try done.
    by intros e ?%elem_of_nil. }
  assert (Hedge : edge G (node cur) nbr w) by (apply Hadj; left).
  assert (Hadj' : ∀ v w', (v, w') ∈ adj → edge G (node cur) v w').
  { intros v w' Hin. apply Hadj. by right. }
  assert (Hnbr : nbr < numNodes G).
  { destruct Hedge as (l & Hl & Hin). by eapply (wf_nbr G Hwf). }
  destruct (lookup_lt_is_Some_2 d nbr) as [dn Hdn].
  { by rewrite (ci_dist_len _ _ _ _ Hci). }
  destruct (lookup_lt_is_Some_2 clo nbr) as [c Hc].
  { by rewrite (ci_closed_len _ _ _ _ Hci). }
  simpl. rewrite Hdn. simpl.
  destruct (cltb (cadd (g cur) w) dn) eqn:Hlt; simpl.
  - rewrite Hc. simpl. destruct c; simpl.
    + destruct (IH clo cur d q tr Hci Hwalk Hadj')
        as (d' & q' & evs & -> & ? & ? & ? & ? & ?).
      exists d', q', evs. split_and!; try done. lia.
    + pose (e := mkState nbr (cadd (g cur) w)
                  (cadd (cadd (g cur) w) (heuristic nbr))).
      assert (Hw' : walk G (startNode G) nbr (cadd (g cur) w)).
      { by econstructor. }
      pose proof (core_inv_push q d clo tr nbr _ dn Hci Hdn Hlt Hc Hw') as Hci'.
      destruct (IH clo cur _ _ _ Hci' Hwalk Hadj')
        as (d' & q' & evs & -> & Hci'' & Hpo & Hex & Hlen & Hop).
      exists d', q', (EvPush e :: evs). simpl in *.
      rewrite <- app_assoc in Hci''. split_and!; try done.
      * change (pushes (EvPush e :: evs)) with (e :: pushes evs). simpl. lia.
      * change (pushes (EvPush e :: evs)) with (e :: pushes evs).
        intros e' [->|He']%elem_of_cons; [done|by apply Hop].
  - destruct (IH clo cur d q tr Hci Hwalk Hadj')
      as (d' & q' & evs & -> & ? & ? & ? & ? & ?).
    exists d', q', evs. split_and!; try done. lia.
Qed.

(** ** One iteration, case by case *)

Inductive step_case (s : SearchState) : step_result → list (event C) → Prop :=
  | case_exit :
      pq_contents (open s) = [] →
      step_case s Exit []
  | case_stale cur :
      pq_contents (open s) ≡ₚ cur :: pq_contents (pq_pop (open s)) →
      (∀ x, x ∈ pq_contents (open s) → cle (f cur) (f x)) →
      staleb (dist s) cur = true →
      step_case s
        (Continue (mkSearch (pq_pop (open s)) (dist s) (closed s)
                     (nodesExpanded s) (S (steps s))))
        [EvStale cur]
  | case_goal cur :
      pq_contents (open s) ≡ₚ cur :: pq_contents (pq_pop (open s)) →
      (∀ x, x ∈ pq_contents (open s) → cle (f cur) (f x)) →
      live (dist s) cur →
      node cur = goalNode G →
      step_case s
        (Break (mkSearch (pq_pop (open s)) (dist s) (closed s)
                  (S (nodesExpanded s)) (S (steps s))))
        [EvExpand cur]
  | case_expand cur adj d' q' evs :
      pq_contents (open s) ≡ₚ cur :: pq_contents (pq_pop (open s)) →
      (∀ x, x ∈ pq_contents (open s) → cle (f cur) (f x)) →
      live (dist s) cur →
      node cur ≠ goalNode G →
      adjacencyList G !! node cur = Some adj →
      explore heuristic (<[node cur := true]> (closed s)) cur adj
        (dist s) (pq_pop (open s)) = Some (d', q', evs) →
      step_case s
        (Continue (mkSearch q' d' (<[node cur := true]> (closed s))
                     (S (nodesExpanded s)) (S (steps s))))
        (EvExpand cur :: evs).

Lemma step_case_of s tr :
  core_inv (open s) (dist s) (closed s) tr →
  step_case s (step G heuristic s).1 (step G heuristic s).2.
Proof using Type* Hwf.
  intros Hci. unfold step.
  destruct (pq_is_empty (open s)) eqn:Hemp.
  { simpl. constructor. by apply pq_is_empty_spec. }
  destruct (pq_top_spec (open s)) as (cur & Htop & Hperm & Hmin).
  { intros Hnil%pq_is_empty_spec. congruence. }
  rewrite Htop.
  assert (Hcur : cur ∈ pq_contents (open s)) by (rewrite Hperm; left).
  destruct (queue_dist_le _ _ _ _ _ Hci Hcur) as (dc & Hdc & Hle).
  rewrite Hdc.
  assert (Hst : staleb (dist s) cur = cltb dc (g cur)).
  { unfold staleb. by rewrite Hdc. }
  destruct (cltb dc (g cur)) eqn:Hlt; simpl.
  { by apply case_stale. }
  destruct (decide (node cur = goalNode G)) as [Hg|Hg]; simpl.
  { by apply case_goal. }
  assert (Hn : node cur < numNodes G).
  { by apply (ci_push _ _ _ _ Hci cur), (queue_pushed _ _ _ _ _ Hci). }
  rewrite decide_True by (by rewrite (ci_closed_len _ _ _ _ Hci)).
  destruct (lookup_lt_is_Some_2 (adjacencyList G) (node cur)) as [adj Hadj].
  { by rewrite (wf_adj_length G Hwf). }
  rewrite Hadj.
  pose proof (core_inv_expand _ _ _ _ _ _ Hci Hperm Hst Hg) as Hci'.
  destruct (explore_core adj (<[node cur:=true]> (closed s)) cur (dist s)
              (pq_pop (open s)) _ Hci') as (d' & q' & evs & Hex & _).
  { by apply (ci_push _ _ _ _ Hci cur), (queue_pushed _ _ _ _ _ Hci). }
  { intros v w Hin. by exists adj. }
  rewrite Hex. simpl. by eapply case_expand.
Qed.

(** ** Counters and the trace *)

Lemma sum_list_submseteq (l k : list nat) : l ⊆+ k → sum_list l ≤ sum_list k.
Proof. induction 1; simpl; lia. Qed.

Lemma degree_sum : sum_list (degree G <$> seq 0 (numNodes G)) = num_entries G.
Proof using Type* Hwf.
  unfold num_entries. f_equal. rewrite <- (wf_adj_length G Hwf).
  apply list_eq. intros i. rewrite !list_lookup_fmap.
  destruct (decide (i < length (adjacencyList G))) as [Hi|Hi].
  - rewrite lookup_seq_lt by done. simpl. unfold degree.
    by destruct (lookup_lt_is_Some_2 _ _ Hi) as [adj ->].
  - rewrite lookup_seq_ge by lia.
    by rewrite (lookup_ge_None_2 (adjacencyList G)) by lia.
Qed.

Lemma degree_sum_le (l : list nat) :
  NoDup l → (∀ v, v ∈ l → v < numNodes G) →
  sum_list (degree G <$> l) ≤ num_entries G.
Proof using Type* Hwf.
  intros Hnd Hlt. rewrite <- degree_sum.
  apply sum_list_submseteq, fmap_submseteq, NoDup_submseteq; [done|].
  intros v Hv. apply elem_of_seq. specialize (Hlt v Hv). lia.
Qed.

Lemma nodup_range_length (l : list nat) :
  NoDup l → (∀ v, v ∈ l → v < numNodes G) → length l ≤ numNodes G.
Proof.
  intros Hnd Hlt. rewrite <- (length_seq (numNodes G) 0).
  apply submseteq_length, NoDup_submseteq; [done|].
  intros v Hv. apply elem_of_seq. specialize (Hlt v Hv). lia.
Qed.

Local Abbreviation sstate := (@SearchState C PQ).

(** The counters against the trace: this also holds after the [break]. *)
Record count_inv (s : sstate) (tr : list (event C)) : Prop := {
  cnt_steps : steps s = length (popped tr);
  cnt_expanded : nodesExpanded s = length (expanded tr);
  cnt_pushes : length (pushes tr) ≤ 1 + sum_list (degree G <$> expanded tr);
}.

Definition loop_inv (s : sstate) (tr : list (event C)) : Prop :=
  core_inv (open s) (dist s) (closed s) tr ∧ count_inv s tr.

Lemma loop_inv_init s0 :
  init_state G heuristic = Some s0 → loop_inv s0 (init_events G heuristic).
Proof using Type* Hwf.
  intros Hinit. split; [by apply core_inv_init|].
  unfold init_state in Hinit. destruct (decide _); [|done].
  injection Hinit as <-. split; simpl; lia.
Qed.

Lemma loop_inv_continue s tr s' evs :
  loop_inv s tr → step_case s (Continue s') evs → loop_inv s' (tr ++ evs).
Proof using Type* Hwf.
  intros [Hci Hcnt] Hcase. destruct Hcnt as [Hst Hne Hpu].
  inversion Hcase as [|cur Hperm Hmin Hstale|
                      |cur adj d' q' evs' Hperm Hmin Hlive Hg Hadj Hex]; subst.
  - split; [by eapply core_inv_stale|].
    split; simpl; rewrite ?popped_app, ?expanded_app, ?pushes_app, ?length_app,
      ?app_nil_r; simpl; lia.
  - pose proof (core_inv_expand _ _ _ _ _ _ Hci Hperm Hlive Hg) as Hci'.
    assert (Hcur : cur ∈ pq_contents (open s)) by (rewrite Hperm; left).
    destruct (explore_core adj (<[node cur:=true]> (closed s)) cur (dist s)
                (pq_pop (open s)) _ Hci')
      as (d'' & q'' & evs'' & Hex' & Hci'' & Hpo & Hexp & Hlen & _).
    { by apply (ci_push _ _ _ _ Hci cur), (queue_pushed _ _ _ _ _ Hci). }
    { intros v w Hin. by exists adj. }
    rewrite Hex in Hex'. injection Hex' as <- <- <-.
    rewrite <- app_assoc in Hci''. split; [done|].
    change (EvExpand cur :: evs') with ([EvExpand cur] ++ evs').
    split; cbn [steps nodesExpanded];
      rewrite ?popped_app, ?expanded_app, ?pushes_app, ?Hpo, ?Hexp, ?app_nil_r,
        ?fmap_app, ?sum_list_with_app, ?length_app; simpl; try lia.
    unfold degree at 2. rewrite Hadj. simpl. lia.
Qed.

Lemma count_inv_break s tr s' evs :
  loop_inv s tr → step_case s (Break s') evs → count_inv s' (tr ++ evs).
Proof.
  intros [Hci [Hst Hne Hpu]] Hcase.
  inversion Hcase as [| |cur Hperm Hmin Hlive Hg|]; subst.
  split; simpl; rewrite ?popped_app, ?expanded_app, ?pushes_app, ?length_app,
    ?app_nil_r, ?fmap_app, ?sum_list_with_app; simpl; lia.
Qed.

Lemma step_case_eq s tr r evs :
  loop_inv s tr → step G heuristic s = (r, evs) → step_case s r evs.
Proof using Type* Hwf.
  intros [Hci _] Hstep. pose proof (step_case_of s tr Hci) as Hc.
  by rewrite Hstep in Hc.
Qed.

Lemma at_loop_head_inv s tr : at_loop_head G heuristic s tr → loop_inv s tr.
Proof using Type* Hwf.
  induction 1 as [s0 Hinit|s tr s' evs _ IH Hstep].
  - by apply loop_inv_init.
  - eapply loop_inv_continue; [done|]. by eapply step_case_eq.
Qed.

Lemma steps_bound s tr : loop_inv s tr → steps s ≤ 1 + num_entries G.
Proof using Type* Hwf.
  intros [Hci [Hst _ Hpu]].
  pose proof (Permutation_length (ci_queue _ _ _ _ Hci)) as Hlen.
  rewrite length_app in Hlen.
  assert (Hd : sum_list (degree G <$> expanded tr) ≤ num_entries G).
  { apply degree_sum_le; [apply Hci|].
    intros v Hv. apply (ci_closed _ _ _ _ Hci) in Hv.
    apply lookup_lt_Some in Hv. by rewrite (ci_closed_len _ _ _ _ Hci) in Hv. }
  lia.
Qed.

(** The loop exits within [1 + num_entries G] iterations. *)
Lemma loop_terminates fuel : ∀ s tr,
  at_loop_head G heuristic s tr →
  1 + num_entries G < steps s + fuel →
  ∃ sf trf, loop G heuristic fuel s = Done (sf, trf) ∧
            (after_exit G heuristic sf (tr ++ trf) ∨ after_break G heuristic sf (tr ++ trf)).
Proof using Type* Hwf.
  induction fuel as [|fuel IH]; intros s tr Hhead Hfuel.
  { pose proof (steps_bound s tr (at_loop_head_inv _ _ Hhead)). lia. }
  pose proof (at_loop_head_inv _ _ Hhead) as Hinv.
  simpl. destruct (step G heuristic s) as [r evs] eqn:Hstep.
  pose proof (step_case_eq _ _ _ _ Hinv Hstep) as Hcase.
  destruct r as [|s'|s'|].
  - exists s, []. rewrite app_nil_r. split; [done|]. left. split; [done|].
    inversion Hcase. by subst.
  - destruct (IH s' (tr ++ evs)) as (sf & trf & -> & Hfin).
    { by eapply head_next. }
    { inversion Hcase; subst; simpl; lia. }
    exists sf, (evs ++ trf). rewrite app_assoc. done.
  - exists s', evs. split; [done|]. right. by exists s, tr, evs.
  - inversion Hcase.
Qed.

(** More fuel changes nothing. *)
Lemma loop_fuel_mono fuel : ∀ s r fuel',
  loop G heuristic fuel s = Done r → fuel ≤ fuel' →
  loop G heuristic fuel' s = Done r.
Proof.
  induction fuel as [|fuel IH]; intros s r fuel' Hloop Hle; [done|].
  destruct fuel' as [|fuel']; [lia|]. simpl in *.
  destruct (step G heuristic s) as [[|s'|s'|] evs]; try done.
  destruct (loop G heuristic fuel s') as [[sf tr]| |] eqn:Hl; try done.
  by rewrite (IH s' (sf, tr) fuel' Hl) by lia.
Qed.

(** ** What holds in every configuration an execution visits *)

Record trace_inv (s : sstate) (tr : list (event C)) : Prop := {
  ti_count : count_inv s tr;
  ti_dist_len : length (dist s) = numNodes G;
  ti_closed_len : length (closed s) = numNodes G;
  ti_queue : pushes tr ≡ₚ pq_contents (open s) ++ popped tr;
  ti_push e :
    e ∈ pushes tr →
    node e < numNodes G ∧ clt (g e) cinf ∧
    walk G (startNode G) (node e) (g e);
  ti_min v x : dist s !! v = Some x → min_pushed tr v x;
  ti_nodup : NoDup (expanded tr);
  ti_goal_open : closed s !! goalNode G = Some false;
}.

Lemma trace_inv_head s tr : at_loop_head G heuristic s tr → trace_inv s tr.
Proof using Type* Hwf.
  intros [Hci Hcnt]%at_loop_head_inv. split; try apply Hci. done.
Qed.

Lemma trace_inv_break s tr : after_break G heuristic s tr → trace_inv s tr.
Proof using Type* Hwf.
  intros (s0 & tr0 & evs & Hhead & Hstep & ->).
  pose proof (at_loop_head_inv _ _ Hhead) as Hinv.
  pose proof (step_case_eq _ _ _ _ Hinv Hstep) as Hcase.
  pose proof (count_inv_break _ _ _ _ Hinv Hcase) as Hcnt.
  destruct Hinv as [Hci _].
  inversion Hcase as [| |cur Hperm Hmin Hlive Hg|]; subst.
  assert (Hpu : pushes (tr0 ++ [EvExpand cur]) = pushes tr0).
  { by rewrite pushes_app, app_nil_r. }
  assert (Hcur : cur ∈ pq_contents (open s0)) by (rewrite Hperm; left).
  split; simpl; rewrite ?Hpu; try apply Hci; try done.
  - rewrite popped_app. simpl. rewrite (ci_queue _ _ _ _ Hci), Hperm.
    simpl. by rewrite app_assoc, <- Permutation_cons_append.
  - intros v x Hv. eapply min_pushed_ext; [done|]. by eapply ci_min.
  - rewrite expanded_app. simpl.
    apply NoDup_app. split_and!; [apply Hci| |apply NoDup_singleton].
    intros v Hv ->%list_elem_of_singleton.
    apply (ci_closed _ _ _ _ Hci) in Hv.
    pose proof (ci_live_open _ _ _ _ Hci cur Hcur Hlive). congruence.
Qed.

Lemma trace_inv_visited s tr : visited G heuristic s tr → trace_inv s tr.
Proof using Type* Hwf.
  intros [?|?]; [by apply trace_inv_head|by apply trace_inv_break].
Qed.

Lemma popped_pushed s tr e : trace_inv s tr → e ∈ popped tr → e ∈ pushes tr.
Proof.
  intros Hti He. rewrite (ti_queue _ _ Hti). apply elem_of_app. by right.
Qed.

Lemma expanded_pushed s tr v :
  trace_inv s tr → v ∈ expanded tr → ∃ e, e ∈ pushes tr ∧ node e = v.
Proof.
  intros Hti (e & He & <-)%elem_of_expanded. exists e. split; [|done].
  eapply popped_pushed; [done|]. unfold popped.
  apply list_elem_of_omap. by exists (EvExpand e).
Qed.

Lemma expanded_range s tr v :
  trace_inv s tr → v ∈ expanded tr → v < numNodes G.
Proof.
  intros Hti (e & He & <-)%(expanded_pushed _ _ _ Hti).
  by apply (ti_push _ _ Hti).
Qed.

Lemma pushes_bound s tr :
  trace_inv s tr → length (pushes tr) ≤ 1 + num_entries G.
Proof using Type* Hwf.
  intros Hti. pose proof (cnt_pushes _ _ (ti_count _ _ Hti)).
  assert (sum_list (degree G <$> expanded tr) ≤ num_entries G); [|lia].
  apply degree_sum_le; [apply Hti|]. intros v. by apply (expanded_range s).
Qed.

Lemma expanded_bound s tr :
  trace_inv s tr → nodesExpanded s ≤ numNodes G ∧ nodesExpanded s ≤ steps s.
Proof.
  intros Hti. destruct (ti_count _ _ Hti) as [-> -> _]. split.
  - apply nodup_range_length; [apply Hti|]. intros v. by apply (expanded_range s).
  - rewrite popped_length. lia.
Qed.

(** ** The whole run *)

Lemma init_state_wf : ∃ s0, init_state G heuristic = Some s0.
Proof using Type* Hwf.
  unfold init_state. rewrite decide_True by apply Hwf. eauto.
Qed.

Lemma run_search_total :
  ∃ sf tr,
    run_search G heuristic (search_fuel G) = Done (sf, tr) ∧
    (after_exit G heuristic sf tr ∨ after_break G heuristic sf tr).
Proof using Type* Hwf.
  destruct init_state_wf as [s0 Hs0]. unfold run_search. rewrite Hs0.
  destruct (loop_terminates (search_fuel G) s0 (init_events G heuristic))
    as (sf & trf & -> & Hfin).
  { by constructor. }
  { unfold search_fuel. lia. }
  by exists sf, (init_events G heuristic ++ trf).
Qed.

Lemma run_search_fuel_mono fuel fuel' r :
  run_search G heuristic fuel = Done r → fuel ≤ fuel' →
  run_search G heuristic fuel' = Done r.
Proof.
  unfold run_search. destruct (init_state G heuristic) as [s0|]; [|done].
  destruct (loop G heuristic fuel s0) as [[sf tr]| |] eqn:Hl; try done.
  intros Heq Hle. by rewrite (loop_fuel_mono fuel s0 (sf, tr) fuel' Hl Hle).
Qed.

(** Whatever fuel lets the run finish, the result is the one obtained with
    [search_fuel]. *)
Lemma run_search_unique fuel r :
  run_search G heuristic fuel = Done r →
  run_search G heuristic (search_fuel G) = Done r.
Proof using Type* Hwf.
  intros Hr. destruct run_search_total as (sf & tr & Hrun & _).
  pose proof (run_search_fuel_mono _ (fuel `max` search_fuel G) _ Hr) as H1.
  pose proof (run_search_fuel_mono _ (fuel `max` search_fuel G) _ Hrun) as H2.
  rewrite H1 in H2 by lia. rewrite Hrun. symmetry. apply H2. lia.
Qed.

Lemma run_search_final fuel sf tr :
  run_search G heuristic fuel = Done (sf, tr) →
  after_exit G heuristic sf tr ∨ after_break G heuristic sf tr.
Proof using Type* Hwf.
  intros Hr%run_search_unique.
  destruct run_search_total as (sf' & tr' & Hrun & Hfin). congruence.
Qed.

Lemma run_search_visited fuel sf tr :
  run_search G heuristic fuel = Done (sf, tr) → visited G heuristic sf tr.
Proof using Type* Hwf.
  intros [[? _]|?]%run_search_final; [by left|by right].
Qed.

(** ** Optimality under a consistent heuristic *)

Section Optimal.
Context `{!CostLaws C}.
Hypothesis Hnonneg : nonneg_weights G.
Hypothesis Hcons : consistent G heuristic.
Hypothesis Hfin : finite_heuristic G heuristic.

Lemma walk_range s v c : walk G s v c → s < numNodes G → v < numNodes G.
Proof using Type* Hwf.
  induction 1 as [|u v c w _ _ (adj & Hadj & Hin)]; [done|]. intros _.
  by eapply (wf_nbr G Hwf).
Qed.

Lemma walk_finite s v c : walk G s v c → clt c cinf.
Proof using Type* Hnonneg.
  induction 1 as [|u v c w _ IH Hedge]; [apply czero_finite|].
  apply cadd_finite; [done|]. by apply (Hnonneg u v w).
Qed.

Lemma walk_nonneg s v c : walk G s v c → cle czero c.
Proof using Type* Hnonneg.
  induction 1 as [|u v c w _ IH Hedge]; [apply cle_refl|].
  eapply cle_trans; [done|]. apply cadd_nonneg. by apply (Hnonneg u v w).
Qed.

(** [f] does not decrease along an edge. *)
Lemma consistent_step u v w c :
  edge G u v w →
  cle (cadd c (heuristic u)) (cadd (cadd c w) (heuristic v)).
Proof using Type* Hcons.
  intros Hedge. rewrite <- cadd_assoc. apply cadd_mono_r. by apply Hcons.
Qed.

(** [pend u v w]: the edge is still to be examined by the inner loop. *)
Record opt_inv (pend : nat → nat → C → Prop) (q : PQ) (d : list C)
    (clo : list bool) : Prop := {
  oi_closed u du c :
    clo !! u = Some true → d !! u = Some du →
    walk G (startNode G) u c → cle du c;
  oi_edge u v w du dv :
    clo !! u = Some true → edge G u v w →
    d !! u = Some du → d !! v = Some dv →
    pend u v w ∨ cle dv (cadd du w);
  oi_fmono u du e :
    clo !! u = Some true → d !! u = Some du → e ∈ pq_contents q →
    cle (cadd du (heuristic u)) (f e);
  oi_f e : e ∈ pq_contents q → f e = cadd (g e) (heuristic (node e));
}.

Definition no_pending (u v : nat) (w : C) : Prop := False.

Definition pending (c : nat) (adj : list (nat * C)) (u v : nat) (w : C) : Prop :=
  u = c ∧ (v, w) ∈ adj.

(** Every walk from the start either ends in a closed node whose distance
    is at most the walk's cost, or is overtaken by an entry of the queue. *)
Lemma frontier q d clo tr :
  core_inv q d clo tr → opt_inv no_pending q d clo →
  ∀ v c, walk G (startNode G) v c →
    (∃ e, e ∈ pq_contents q ∧ cle (f e) (cadd c (heuristic v))) ∨
    (clo !! v = Some true ∧ ∃ dv, d !! v = Some dv ∧ cle dv c).
Proof using Type* Hwf Hnonneg Hcons.
  intros Hci Hoi v c Hwalk.
  assert (Hopen : ∀ v dv c, d !! v = Some dv → cle dv c → clt c cinf →
            clo !! v = Some false →
            ∃ e, e ∈ pq_contents q ∧ cle (f e) (cadd c (heuristic v))).
  { intros v' dv c' Hdv Hle Hc Hclo.
    destruct (ci_front _ _ _ _ Hci v' dv Hdv) as (e & He & Hn & Hg);
      [by eapply cle_lt_trans|done|].
    exists e. split; [done|].
    rewrite (oi_f _ _ _ _ Hoi e He), Hn, Hg. by apply cadd_mono_l. }
  induction Hwalk as [|u v c w Hwalk IH Hedge].
  - destruct (ci_start _ _ _ _ Hci) as (x & Hx & Hx0).
    destruct (lookup_lt_is_Some_2 clo (startNode G)) as [[] Hb].
    { rewrite (ci_closed_len _ _ _ _ Hci). apply Hwf. }
    + right. eauto.
    + left. eapply Hopen; [done..|apply czero_finite|done].
  - destruct IH as [(e & He & Hle)|(Hclo & du & Hdu & Hle)].
    + left. exists e. split; [done|].
      eapply cle_trans; [done|]. by apply consistent_step.
    + assert (Hv : v < numNodes G).
      { eapply walk_range; [|apply Hwf]. by econstructor. }
      destruct (lookup_lt_is_Some_2 d v) as [dv Hdv].
      { by rewrite (ci_dist_len _ _ _ _ Hci). }
      destruct (lookup_lt_is_Some_2 clo v) as [b Hb].
      { by rewrite (ci_closed_len _ _ _ _ Hci). }
      destruct (oi_edge _ _ _ _ Hoi u v w du dv Hclo Hedge Hdu Hdv)
        as [[]|Hdv'].
      assert (Hle' : cle dv (cadd c w)).
      { eapply cle_trans; [done|]. by apply cadd_mono_l. }
      destruct b.
      * right. eauto.
      * left. eapply Hopen; [done..| |done].
        eapply walk_finite. by econstructor.
Qed.

(** The entry taken from the queue, when it is not stale, carries the
    least cost of any walk to its node. *)
Lemma pop_optimal q d clo tr cur :
  core_inv q d clo tr → opt_inv no_pending q d clo →
  cur ∈ pq_contents q →
  (∀ x, x ∈ pq_contents q → cle (f cur) (f x)) →
  live d cur →
  ∀ c, walk G (startNode G) (node cur) c → cle (g cur) c.
Proof using Type* Hwf Hnonneg Hcons Hfin.
  intros Hci Hoi Hcur Hmin Hlive c Hwalk.
  destruct (frontier _ _ _ _ Hci Hoi _ _ Hwalk)
    as [(e & He & Hle)|(Hclo & _)].
  - apply (cadd_cancel_r _ _ (heuristic (node cur))).
    { by apply Hfin, (ci_push _ _ _ _ Hci cur), (queue_pushed _ _ _ _ _ Hci). }
    rewrite <- (oi_f _ _ _ _ Hoi cur Hcur).
    eapply cle_trans; [by apply Hmin|done].
  - pose proof (ci_live_open _ _ _ _ Hci cur Hcur Hlive). congruence.
Qed.

Lemma opt_inv_init s0 :
  init_state G heuristic = Some s0 →
  opt_inv no_pending (open s0) (dist s0) (closed s0).
Proof.
  unfold init_state. destruct (decide _); [|done]. intros [= <-].
  split; simpl.
  - intros u du c Hclo. by apply lookup_replicate in Hclo as [? _].
  - intros u v w du dv Hclo. by apply lookup_replicate in Hclo as [? _].
  - intros u du e Hclo. by apply lookup_replicate in Hclo as [? _].
  - intros e. rewrite pq_contents_push, pq_contents_new.
    intros ->%list_elem_of_singleton. simpl. by rewrite cadd_zero_l.
Qed.

Lemma opt_inv_stale q rest d clo cur :
  opt_inv no_pending q d clo →
  pq_contents q ≡ₚ cur :: pq_contents rest →
  opt_inv no_pending rest d clo.
Proof.
  intros Hoi Hperm. split; [apply Hoi..| |].
  - intros u du e Hclo Hdu He. apply (oi_fmono _ _ _ _ Hoi u du e); [done..|].
    rewrite Hperm. by right.
  - intros e He. apply (oi_f _ _ _ _ Hoi). rewrite Hperm. by right.
Qed.

(** After line 161 every edge of [cur] is pending. *)
Lemma opt_inv_expand q rest d clo tr cur adj :
  core_inv q d clo tr → opt_inv no_pending q d clo →
  pq_contents q ≡ₚ cur :: pq_contents rest →
  (∀ x, x ∈ pq_contents q → cle (f cur) (f x)) →
  live d cur →
  adjacencyList G !! node cur = Some adj →
  opt_inv (pending (node cur) adj) rest d (<[node cur := true]> clo).
Proof using Type* Hwf Hnonneg Hcons Hfin.
  intros Hci Hoi Hperm Hmin Hlive Hadj.
  assert (Hcur : cur ∈ pq_contents q) by (rewrite Hperm; left).
  pose proof (live_dist_eq _ _ _ _ _ Hci Hcur Hlive) as Hdcur.
  assert (Hold : ∀ u, u ≠ node cur → <[node cur:=true]> clo !! u = Some true →
            clo !! u = Some true).
  { intros u Hne. by rewrite list_lookup_insert_ne. }
  split.
  - intros u du c Hclo Hdu Hwalk.
    destruct (decide (u = node cur)) as [->|Hne].
    + assert (du = g cur) as -> by congruence.
      by eapply pop_optimal.
    + eapply (oi_closed _ _ _ _ Hoi); eauto.
  - intros u v w du dv Hclo Hedge Hdu Hdv.
    destruct (decide (u = node cur)) as [->|Hne].
    + left. split; [done|]. destruct Hedge as (adj' & Hadj' & Hin). congruence.
    + destruct (oi_edge _ _ _ _ Hoi u v w du dv) as [[]|?]; eauto.
  - intros u du e Hclo Hdu He.
    assert (He' : e ∈ pq_contents q) by (rewrite Hperm; by right).
    destruct (decide (u = node cur)) as [->|Hne].
    + assert (du = g cur) as -> by congruence.
      rewrite <- (oi_f _ _ _ _ Hoi cur Hcur). by apply Hmin.
    + eapply (oi_fmono _ _ _ _ Hoi); eauto.
  - intros e He. apply (oi_f _ _ _ _ Hoi). rewrite Hperm. by right.
Qed.

(** The inner loop settles the pending edges of [cur]. *)
Lemma explore_opt clo cur adj : ∀ d q tr d' q' evs,
  core_inv q d clo tr →
  opt_inv (pending (node cur) adj) q d clo →
  clo !! node cur = Some true →
  d !! node cur = Some (g cur) →
  walk G (startNode G) (node cur) (g cur) →
  (∀ u du, clo !! u = Some true → d !! u = Some du →
     cle (cadd du (heuristic u)) (cadd (g cur) (heuristic (node cur)))) →
  (∀ v w, (v, w) ∈ adj → edge G (node cur) v w) →
  explore heuristic clo cur adj d q = Some (d', q', evs) →
  opt_inv no_pending q' d' clo.
Proof using Type* Hwf Hnonneg Hcons Hfin.
  induction adj as [|[nbr w] adj IH];
    intros d q tr d' q' evs Hci Hoi Hclo Hdcur Hwalk Hf Hadj Hex.
  { simpl in Hex. injection Hex as <- <- <-.
    split; [apply Hoi| |apply Hoi..].
    intros u v w du dv ? ? ? ?.
    destruct (oi_edge _ _ _ _ Hoi u v w du dv) as [[_ []%elem_of_nil]|?]; auto. }
  assert (Hedge : edge G (node cur) nbr w) by (apply Hadj; left).
  assert (Hadj' : ∀ v w', (v, w') ∈ adj → edge G (node cur) v w').
  { intros v w' Hin. apply Hadj. by right. }
  simpl in Hex.
  destruct (d !! nbr) as [dn|] eqn:Hdn; [|done]. simpl in Hex.
  (* the neighbour is left as it is whenever [dn ≤ newG] *)
  assert (Hskip : cle dn (cadd (g cur) w) →
            opt_inv (pending (node cur) adj) q d clo).
  { intros Hle. split; [apply Hoi| |apply Hoi..].
    intros u v w' du dv Hu Hed Hdu Hdv.
    destruct (oi_edge _ _ _ _ Hoi u v w' du dv) as [[-> Hin]|?]; auto.
    apply elem_of_cons in Hin as [[= -> ->]|Hin].
    - right. assert (du = g cur) as -> by congruence.
      assert (dv = dn) as -> by congruence. done.
    - left. by split. }
  destruct (cltb (cadd (g cur) w) dn) eqn:Hlt; [|by eapply IH; eauto].
  destruct (clo !! nbr) as [c|] eqn:Hc; [|done]. simpl in Hex.
  destruct c; simpl in Hex.
  { (* closed neighbour: its distance is already at most [newG] *)
    eapply IH; eauto. apply Hskip.
    apply (cadd_cancel_r _ _ (heuristic nbr)).
    { apply Hfin. destruct Hedge as (l & Hl & Hin). by eapply (wf_nbr G Hwf). }
    eapply cle_trans; [by apply Hf|]. by apply consistent_step. }
  destruct (explore heuristic clo cur adj _ _) as [[[d1 q1] evs1]|] eqn:Hex1;
    [|done].
  simpl in Hex. injection Hex as <- <- <-.
  assert (Hne : nbr ≠ node cur) by congruence.
  assert (Hw' : walk G (startNode G) nbr (cadd (g cur) w)) by (by econstructor).
  pose proof (core_inv_push q d clo tr nbr _ dn Hci Hdn Hlt Hc Hw') as Hci'.
  eapply (IH _ _ _ _ _ _ Hci'); [|done|by rewrite list_lookup_insert_ne|done| |done|done].
  - split.
    + intros u du c Hu Hdu.
      rewrite list_lookup_insert_ne in Hdu by congruence.
      by eapply (oi_closed _ _ _ _ Hoi).
    + intros u v w' du dv Hu Hed Hdu Hdv.
      rewrite list_lookup_insert_ne in Hdu by congruence.
      apply list_lookup_insert_Some in Hdv as [(<- & <- & _)|[Hnv Hdv]].
      * destruct (oi_edge _ _ _ _ Hoi u nbr w' du dn) as [[-> Hin]|Hle]; auto.
        -- apply elem_of_cons in Hin as [[= ->]|Hin].
           ++ right. assert (du = g cur) as -> by congruence. apply cle_refl.
           ++ left. by split.
        -- right. eapply cle_trans; [by apply clt_asym|done].
      * destruct (oi_edge _ _ _ _ Hoi u v w' du dv) as [[-> Hin]|Hle]; auto.
        apply elem_of_cons in Hin as [[= -> ->]|Hin]; [done|]. left. by split.
    + intros u du e Hu Hdu He.
      rewrite list_lookup_insert_ne in Hdu by congruence.
      rewrite pq_contents_push in He. apply elem_of_cons in He as [->|He].
      * simpl. eapply cle_trans; [by apply Hf|]. by apply consistent_step.
      * by eapply (oi_fmono _ _ _ _ Hoi).
    + intros e. rewrite pq_contents_push.
      intros [->|He]%elem_of_cons; [done|]. by apply (oi_f _ _ _ _ Hoi).
  - intros u du Hu Hdu.
    rewrite list_lookup_insert_ne in Hdu by congruence. by apply Hf.
Qed.

Lemma opt_inv_continue s tr s' evs :
  loop_inv s tr → opt_inv no_pending (open s) (dist s) (closed s) →
  step_case s (Continue s') evs →
  opt_inv no_pending (open s') (dist s') (closed s').
Proof using Type* Hwf Hnonneg Hcons Hfin.
  intros [Hci _] Hoi Hcase.
  inversion Hcase as [|cur Hperm Hmin Hstale|
                      |cur adj d' q' evs' Hperm Hmin Hlive Hg Hadj Hex]; subst.
  - simpl. by eapply opt_inv_stale.
  - simpl.
    assert (Hcur : cur ∈ pq_contents (open s)) by (rewrite Hperm; left).
    pose proof (core_inv_expand _ _ _ _ _ _ Hci Hperm Hlive Hg) as Hci'.
    pose proof (opt_inv_expand _ _ _ _ _ _ _ Hci Hoi Hperm Hmin Hlive Hadj)
      as Hoi'.
    pose proof (live_dist_eq _ _ _ _ _ Hci Hcur Hlive) as Hdcur.
    assert (Hlt : node cur < length (closed s)).
    { rewrite (ci_closed_len _ _ _ _ Hci).
      by apply (ci_push _ _ _ _ Hci cur), (queue_pushed _ _ _ _ _ Hci). }
    eapply (explore_opt _ cur adj _ _ _ _ _ _ Hci' Hoi'); [| | | | |done].
    + by apply list_lookup_insert_eq.
    + done.
    + by apply (ci_push _ _ _ _ Hci cur), (queue_pushed _ _ _ _ _ Hci).
    + intros u du Hu Hdu.
      pose proof (oi_f _ _ _ _ Hoi cur Hcur) as Hfcur.
      destruct (decide (u = node cur)) as [->|Hne].
      * assert (du = g cur) as -> by congruence. apply cle_refl.
      * rewrite list_lookup_insert_ne in Hu by done. rewrite <- Hfcur.
        by apply (oi_fmono _ _ _ _ Hoi u du cur).
    + intros v w Hin. by exists adj.
Qed.

Lemma at_loop_head_opt s tr :
  at_loop_head G heuristic s tr → opt_inv no_pending (open s) (dist s) (closed s).
Proof using Type* Hwf Hnonneg Hcons Hfin.
  induction 1 as [s0 Hinit|s tr s' evs Hhead IH Hstep].
  - by apply opt_inv_init.
  - pose proof (at_loop_head_inv _ _ Hhead) as Hinv.
    eapply opt_inv_continue; [done..|]. by eapply step_case_eq.
Qed.

(** At the [break], [dist[goal]] is the length of a shortest walk. *)
Lemma break_shortest sf tr :
  after_break G heuristic sf tr →
  ∃ dg, dist sf !! goalNode G = Some dg ∧ clt dg cinf ∧
        shortest_dist G (startNode G) (goalNode G) dg.
Proof using Type* Hwf Hnonneg Hcons Hfin.
  intros (s & tr0 & evs & Hhead & Hstep & ->).
  pose proof (at_loop_head_inv _ _ Hhead) as Hinv.
  pose proof (at_loop_head_opt _ _ Hhead) as Hoi.
  pose proof (step_case_eq _ _ _ _ Hinv Hstep) as Hcase.
  destruct Hinv as [Hci _].
  inversion Hcase as [| |cur Hperm Hmin Hlive Hg|]; subst. simpl.
  assert (Hcur : cur ∈ pq_contents (open s)) by (rewrite Hperm; left).
  pose proof (live_dist_eq _ _ _ _ _ Hci Hcur Hlive) as Hdcur.
  destruct (ci_push _ _ _ _ Hci cur (queue_pushed _ _ _ _ _ Hci Hcur))
    as (_ & Hgfin & Hwalk).
  rewrite Hg in *. exists (g cur). split_and!; [done..|].
  split; [done|]. intros c Hc. rewrite <- Hg in Hc. by eapply pop_optimal.
Qed.

(** The queue cannot run empty while the goal can be reached. *)
Lemma exit_unreachable sf tr :
  after_exit G heuristic sf tr → ¬ reachable_from G (startNode G) (goalNode G).
Proof using Type* Hwf Hnonneg Hcons Hfin.
  intros [Hhead Hstep] [c Hwalk].
  pose proof (at_loop_head_inv _ _ Hhead) as Hinv.
  pose proof (at_loop_head_opt _ _ Hhead) as Hoi.
  pose proof (step_case_eq _ _ _ _ Hinv Hstep) as Hcase.
  destruct Hinv as [Hci _]. inversion Hcase as [Hnil| | |]; subst.
  destruct (frontier _ _ _ _ Hci Hoi _ _ Hwalk) as [(e & He & _)|(Hclo & _)].
  - rewrite Hnil in He. by apply elem_of_nil in He.
  - pose proof (ci_goal_open _ _ _ _ Hci). congruence.
Qed.

End Optimal.

End Invariants.

(** ** Single iterations as the code takes them *)

Section Steps.
Context `{OrderLaws C} {PQ : Type} `{!PriorityQueue C PQ}.
Variable G : GraphData C.
Variable heuristic : nat → C.
Hypothesis Hwf : wf_graph G.
Local Abbreviation sstate := (@SearchState C PQ).

(** The entry [top] returns is in the queue, in range, and no other entry
    has a smaller [f]. *)
Lemma top_in_queue (s : sstate) tr cur :
  at_loop_head G heuristic s tr →
  pq_is_empty (open s) = false → pq_top (open s) = Some cur →
  cur ∈ pq_contents (open s) ∧
  pq_contents (open s) ≡ₚ cur :: pq_contents (pq_pop (open s)) ∧
  (∀ x, x ∈ pq_contents (open s) → cle (f cur) (f x)) ∧
  ∃ dc, dist s !! node cur = Some dc ∧ cle dc (g cur).
Proof using Type* Hwf.
  intros Hhead Hemp Htop.
  destruct (at_loop_head_inv G heuristic Hwf _ _ Hhead) as [Hci _].
  destruct (pq_top_spec (open s)) as (e & He & Hperm & Hmin).
  { intros Hnil%pq_is_empty_spec. congruence. }
  assert (e = cur) as -> by congruence.
  assert (Hcur : cur ∈ pq_contents (open s)) by (rewrite Hperm; left).
  split_and!; [done..|]. by eapply queue_dist_le.
Qed.

(** Lines 150-153. *)
Lemma step_stale (s : sstate) cur :
  pq_is_empty (open s) = false → pq_top (open s) = Some cur →
  staleb (dist s) cur = true →
  step G heuristic s =
    (Continue (mkSearch (pq_pop (open s)) (dist s) (closed s)
                 (nodesExpanded s) (S (steps s))),
     [EvStale cur]).
Proof.
  intros Hemp Htop Hstale. unfold step. rewrite Hemp, Htop.
  unfold staleb in Hstale. destruct (dist s !! node cur); [|done].
  by rewrite Hstale.
Qed.

(** Lines 156-160. *)
Lemma step_goal (s : sstate) tr cur :
  at_loop_head G heuristic s tr →
  pq_is_empty (open s) = false → pq_top (open s) = Some cur →
  staleb (dist s) cur = false → node cur = goalNode G →
  step G heuristic s =
    (Break (mkSearch (pq_pop (open s)) (dist s) (closed s)
              (S (nodesExpanded s)) (S (steps s))),
     [EvExpand cur]).
Proof using Type* Hwf.
  intros Hhead Hemp Htop Hlive Hg.
  destruct (top_in_queue s tr cur Hhead Hemp Htop)
    as (_ & _ & _ & dc & Hdc & _).
  unfold step. rewrite Hemp, Htop, Hdc.
  unfold staleb in Hlive. rewrite Hdc in Hlive. rewrite Hlive.
  by rewrite decide_True.
Qed.

(** Whatever is pushed in an iteration is pushed for a node that is not
    closed, before the iteration and after it. *)
Lemma pushed_not_closed (s : sstate) tr s' evs e :
  at_loop_head G heuristic s tr →
  step G heuristic s = (Continue s', evs) →
  e ∈ pushes evs →
  closed s !! node e = Some false ∧ closed s' !! node e = Some false.
Proof using Type* Hwf.
  intros Hhead Hstep He.
  pose proof (at_loop_head_inv G heuristic Hwf _ _ Hhead) as Hinv.
  pose proof (step_case_eq G heuristic Hwf _ _ _ _ Hinv Hstep) as Hcase.
  destruct Hinv as [Hci _].
  inversion Hcase as [|cur Hperm Hmin Hstale|
                      |cur adj d' q' evs' Hperm Hmin Hlive Hg Hadj Hex]; subst.
  { by apply elem_of_nil in He. }
  assert (Hcur : cur ∈ pq_contents (open s)) by (rewrite Hperm; left).
  pose proof (core_inv_expand G _ _ _ _ _ _ Hci Hperm Hlive Hg) as Hci'.
  destruct (explore_core G heuristic Hwf adj (<[node cur:=true]> (closed s)) cur
              (dist s) (pq_pop (open s)) _ Hci')
    as (d'' & q'' & evs'' & Hex' & _ & _ & _ & _ & Hopen).
  { by apply (ci_push _ _ _ _ _ Hci cur), (queue_pushed G _ _ _ _ _ Hci). }
  { intros v w Hin. by exists adj. }
  rewrite Hex in Hex'. injection Hex' as <- <- <-.
  change (pushes (EvExpand cur :: evs')) with (pushes evs') in He.
  pose proof (Hopen e He) as Hclo. simpl. split; [|done].
  destruct (decide (node cur = node e)) as [Heq|Hne].
  - rewrite <- Heq, list_lookup_insert_eq in Hclo; [done|].
    rewrite (ci_closed_len _ _ _ _ _ Hci).
    by apply (ci_push _ _ _ _ _ Hci cur), (queue_pushed G _ _ _ _ _ Hci).
  - by rewrite list_lookup_insert_ne in Hclo.
Qed.

Local Abbreviation e0 := (mkState (startNode G) czero (heuristic (startNode G))).

(** The first iteration takes the start entry and finds it live. *)
Lemma first_step s0 :
  init_state G heuristic = Some s0 →
  ∃ r evs, step G heuristic s0 = (r, EvExpand e0 :: evs) ∧
           (∃ s', r = Continue s' ∨ r = Break s').
Proof using Type* Hwf.
  intros Hinit.
  pose proof (loop_inv_init G heuristic Hwf s0 Hinit) as Hinv.
  pose proof (step_case_of G heuristic Hwf s0 _ (proj1 Hinv)) as Hcase.
  destruct (step G heuristic s0) as [r evs]. simpl in Hcase.
  unfold init_state in Hinit. destruct (decide _) as [Hs|]; [|done].
  injection Hinit as <-. simpl in *.
  assert (Hq : pq_contents (pq_push e0 pq_new) ≡ₚ [e0]).
  { by rewrite pq_contents_push, pq_contents_new. }
  assert (Hcur : ∀ cur rest, pq_contents (pq_push e0 pq_new) ≡ₚ cur :: rest →
            cur = e0).
  { intros cur rest Hperm. rewrite Hq in Hperm.
    apply Permutation_singleton_l in Hperm. congruence. }
  assert (Hl0 : staleb (<[startNode G:=czero]> (replicate (numNodes G) cinf)) e0
                = false).
  { unfold staleb. simpl. rewrite list_lookup_insert_eq.
    - apply clt_irrefl.
    - by rewrite length_replicate. }
  inversion Hcase as [Hnil|cur Hperm Hmin Hstale|cur Hperm Hmin Hlive Hg
                      |cur adj d' q' evs' Hperm Hmin Hlive Hg Hadj Hex]; subst;
    simpl in *.
  - rewrite Hnil in Hq. by apply Permutation_nil_cons in Hq.
  - rewrite (Hcur _ _ Hperm) in Hstale. congruence.
  - rewrite (Hcur _ _ Hperm). eexists _, _. split; [done|]. eexists. by right.
  - rewrite (Hcur _ _ Hperm). eexists _, _. split; [done|]. eexists. by left.
Qed.

Lemma loop_first_event fuel s0 sf tr :
  init_state G heuristic = Some s0 →
  loop G heuristic fuel s0 = Done (sf, tr) →
  ∃ tr', tr = EvExpand e0 :: tr'.
Proof using Type* Hwf.
  intros Hinit Hloop.
  destruct (first_step s0 Hinit) as (r & evs & Hstep & s' & Hr).
  destruct fuel as [|fuel]; [done|]. simpl in Hloop. rewrite Hstep in Hloop.
  destruct Hr as [-> | ->].
  - destruct (loop G heuristic fuel s') as [[sf' tr']| |]; [|done..].
    injection Hloop as <- <-. eauto.
  - injection Hloop as <- <-. eauto.
Qed.

End Steps.

(** ** The adjacency structure of [E] edges has [2 E] entries *)

Section Build.
Context {C : Type}.

Lemma alter_snoc_entries (adj : list (list (nat * C))) i x :
  sum_list (length <$> alter (λ l, l ++ [x]) i adj) =
  sum_list (length <$> adj) + (if decide (i < length adj) then 1 else 0).
Proof.
  revert i. induction adj as [|l adj IH]; intros [|i]; simpl; try done.
  - rewrite length_app. simpl. lia.
  - specialize (IH i). unfold alter, fmap in IH. rewrite IH.
    repeat case_decide; lia.
Qed.

Lemma add_edge_length (adj : list (list (nat * C))) e :
  length (add_edge adj e) = length adj.
Proof. destruct e as [[u v] w]. unfold add_edge. by rewrite !length_alter. Qed.

Lemma add_edge_entries (adj : list (list (nat * C))) u v w :
  u < length adj → v < length adj →
  sum_list (length <$> add_edge adj (u, v, w)) = sum_list (length <$> adj) + 2.
Proof.
  intros Hu Hv. unfold add_edge. rewrite !alter_snoc_entries, length_alter.
  rewrite !decide_True by done. lia.
Qed.

Lemma build_entries (edges : list (nat * nat * C)) : ∀ adj,
  Forall (λ e, e.1.1 < length adj ∧ e.1.2 < length adj) edges →
  length (foldl add_edge adj edges) = length adj ∧
  sum_list (length <$> foldl add_edge adj edges) =
    sum_list (length <$> adj) + 2 * length edges.
Proof.
  induction edges as [|[[u v] w] edges IH]; intros adj Hall.
  { simpl. split; [done|lia]. }
  apply Forall_cons in Hall as [[Hu Hv] Hall]. cbn [fst snd] in Hu, Hv.
  cbn [foldl length].
  destruct (IH (add_edge adj (u, v, w))) as [Hlen Hsum].
  { rewrite add_edge_length. done. }
  rewrite add_edge_length in Hlen. split; [done|].
  rewrite Hsum, add_edge_entries by done. lia.
Qed.

Lemma build_adjacency_entries n (edges : list (nat * nat * C)) :
  Forall (λ e, e.1.1 < n ∧ e.1.2 < n) edges →
  length (build_adjacency n edges) = n ∧
  sum_list (length <$> build_adjacency n edges) = 2 * length edges.
Proof.
  intros Hall. unfold build_adjacency.
  destruct (build_entries edges (replicate n [])) as [Hlen Hsum].
  { by rewrite length_replicate. }
  rewrite length_replicate in Hlen. split; [done|]. rewrite Hsum.
  assert (sum_list (length <$> replicate n ([] : list (nat * C))) = 0) as ->;
    [|lia].
  clear. induction n; simpl; [done|]. done.
Qed.

End Build.

(** ** The harness *)

Section Harness.
Context `{OrderLaws C} {PQ : Type} `{!PriorityQueue C PQ}.
Variable G : GraphData C.
Variable heuristic : nat → C.
Hypothesis Hwf : wf_graph G.
Local Abbreviation sstate := (@SearchState C PQ).

Lemma path_cost_defined (sf : sstate) tr :
  visited G heuristic sf tr →
  ∃ dg, dist sf !! goalNode G = Some dg ∧
        path_cost_of G sf = Some (if negb (ceqb dg cinf) then dg else cminus1).
Proof using Type* Hwf.
  intros Hti%(trace_inv_visited G heuristic Hwf).
  destruct (lookup_lt_is_Some_2 (dist sf) (goalNode G)) as [dg Hdg].
  { rewrite (ti_dist_len _ _ _ Hti). apply Hwf. }
  exists dg. split; [done|]. unfold path_cost_of. by rewrite Hdg.
Qed.

(** One run: it always ends, in a visited configuration, and line 185 is
    defined on it. *)
Lemma one_run :
  ∃ (sf : sstate) tr pc,
    run_search G heuristic (search_fuel G) = Done (sf, tr) ∧
    visited G heuristic sf tr ∧
    path_cost_of G sf = Some pc.
Proof using Type* Hwf.
  destruct (run_search_total G heuristic Hwf) as (sf & tr & Hrun & Hfin).
  assert (Hvis : visited G heuristic sf tr).
  { by eapply run_search_visited. }
  destruct (path_cost_defined sf tr Hvis) as (dg & _ & Hpc).
  eauto 10.
Qed.

Lemma search_run (sf : sstate) tr pc :
  run_search G heuristic (search_fuel G) = Done (sf, tr) →
  path_cost_of G sf = Some pc →
  search G heuristic (search_fuel G)
  = Done (mkResult pc (nodesExpanded sf) (steps sf)).
Proof. intros Hrun Hpc. unfold search. by rewrite Hrun, Hpc. Qed.

Lemma search_unique fuel r :
  search G heuristic fuel = Done r →
  search G heuristic (search_fuel G) = Done r.
Proof using Type* Hwf.
  unfold search.
  destruct (run_search G heuristic fuel) as [[sf tr]| |] eqn:Hrun; [|done..].
  by rewrite (run_search_unique G heuristic Hwf fuel _ Hrun).
Qed.

Lemma run_body_spec clock run t log (sf : sstate) tr pc :
  run_search G heuristic (search_fuel G) = Done (sf, tr) →
  path_cost_of G sf = Some pc →
  run_body G heuristic clock run (t, log) =
  Done (mkTotals (totalNanoseconds t + clock run)
          (totalNodesExpanded t + nodesExpanded sf)
          (totalSteps t + steps sf)
          (if decide (run = 0) then pc else pathCost t),
        log ++ [sf]).
Proof.
  intros Hrun Hpc. unfold run_body. rewrite Hrun.
  destruct (decide (run = 0)); [by rewrite Hpc|done].
Qed.

Lemma for_runs_spec clock (sf : sstate) tr pc n : ∀ run t log,
  run_search G heuristic (search_fuel G) = Done (sf, tr) →
  path_cost_of G sf = Some pc →
  for_runs G heuristic clock n run (t, log) =
  Done (mkTotals (totalNanoseconds t + total_time clock run n)
          (totalNodesExpanded t + n * nodesExpanded sf)
          (totalSteps t + n * steps sf)
          (if decide (run = 0 ∧ 0 < n) then pc else pathCost t),
        log ++ replicate n sf).
Proof.
  induction n as [|n IH]; intros run t log Hrun Hpc.
  { simpl. rewrite app_nil_r, decide_False by lia. unfold total_time. simpl.
    rewrite Z.add_0_r, !Nat.add_0_r. by destruct t. }
  cbn [for_runs]. rewrite (run_body_spec clock run t log sf tr pc Hrun Hpc).
  rewrite IH by done. cbn [totalNanoseconds totalNodesExpanded totalSteps pathCost].
  f_equal. f_equal.
  - f_equal.
    + change (total_time clock run (S n))
        with (clock run + total_time clock (S run) n)%Z. lia.
    + lia.
    + lia.
    + rewrite (decide_False (P := S run = 0 ∧ 0 < n)) by lia.
      destruct (decide (run = 0)).
      * by rewrite decide_True by lia.
      * by rewrite decide_False by lia.
  - by rewrite <- app_assoc.
Qed.

End Harness.

(** * The claims *)

Section ClaimLemmas.
Context `{OrderLaws C} {PQ : Type} `{!PriorityQueue C PQ}.
Variable G : GraphData C.
Variable heuristic : nat → C.
Hypothesis Hwf : wf_graph G.
Local Abbreviation sstate := (@SearchState C PQ).

(** The inner loop only pushes. *)
Lemma explore_events clo cur adj : ∀ d (q : PQ) d' q' evs,
  explore heuristic clo cur adj d q = Some (d', q', evs) →
  popped evs = [] ∧ stale_pops evs = [] ∧ expanded evs = [].
Proof.
  induction adj as [|[nbr w] adj IH]; intros d q d' q' evs Hex; simpl in Hex.
  { by injection Hex as <- <- <-. }
  destruct (d !! nbr) as [dn|]; [|done]. simpl in Hex.
  destruct (cltb _ dn); [|by eapply IH].
  destruct (clo !! nbr) as [[]|]; simpl in Hex; [by eapply IH| |done].
  destruct (explore heuristic clo cur adj _ _) as [[[d1 q1] evs1]|] eqn:Hex1;
    [|done].
  simpl in Hex. injection Hex as <- <- <-.
  destruct (IH _ _ _ _ _ Hex1) as (Hp & Hs & He).
  unfold popped, stale_pops, expanded in *. simpl. done.
Qed.

(** An iteration that pops counts one step, and counts one expansion
    exactly when the entry is not stale. *)
Lemma step_counts (s : sstate) r evs :
  step G heuristic s = (r, evs) →
  ∀ s', r = Continue s' ∨ r = Break s' →
  steps s' = S (steps s) ∧
  ∃ cur, pq_top (open s) = Some cur ∧
    ((staleb (dist s) cur = true ∧ nodesExpanded s' = nodesExpanded s ∧
      evs = [EvStale cur]) ∨
     (staleb (dist s) cur = false ∧ nodesExpanded s' = S (nodesExpanded s) ∧
      ∃ evs', evs = EvExpand cur :: evs' ∧
              stale_pops evs' = [] ∧ expanded evs' = [])).
Proof.
  unfold step. intros Hstep s' Hr.
  destruct (pq_is_empty (open s)).
  { injection Hstep as <- <-. by destruct Hr. }
  destruct (pq_top (open s)) as [cur|].
  2:{ injection Hstep as <- <-. by destruct Hr. }
  destruct (dist s !! node cur) as [dc|] eqn:Hdc.
  2:{ injection Hstep as <- <-. by destruct Hr. }
  assert (Hst : staleb (dist s) cur = cltb dc (g cur)).
  { unfold staleb. by rewrite Hdc. }
  destruct (cltb dc (g cur)).
  { injection Hstep as <- <-. destruct Hr as [[= <-]|?]; [|done]. simpl.
    split; [done|]. exists cur. split; [done|]. by left. }
  destruct (decide (node cur = goalNode G)).
  { injection Hstep as <- <-. destruct Hr as [?|[= <-]]; [done|]. simpl.
    split; [done|]. exists cur. split; [done|]. right.
    split_and!; [done..|]. by exists []. }
  destruct (decide (node cur < length (closed s))).
  2:{ injection Hstep as <- <-. by destruct Hr. }
  destruct (adjacencyList G !! node cur) as [adj|].
  2:{ injection Hstep as <- <-. by destruct Hr. }
  destruct (explore heuristic _ cur adj (dist s) _) as [[[d' q'] evs']|] eqn:Hex.
  2:{ injection Hstep as <- <-. by destruct Hr. }
  injection Hstep as <- <-. destruct Hr as [[= <-]|?]; [|done]. simpl.
  split; [done|]. exists cur. split; [done|]. right.
  split_and!; [done..|]. exists evs'.
  destruct (explore_events _ _ _ _ _ _ _ _ Hex) as (_ & ? & ?). done.
Qed.

Lemma final_counts fuel (sf : sstate) tr :
  run_search G heuristic fuel = Done (sf, tr) →
  steps sf = length (popped tr) ∧
  nodesExpanded sf = length (expanded tr) ∧
  steps sf = length (stale_pops tr) + nodesExpanded sf ∧
  NoDup (expanded tr) ∧
  nodesExpanded sf ≤ steps sf ∧
  nodesExpanded sf ≤ numNodes G.
Proof using Type* Hwf.
  intros Hvis%(run_search_visited G heuristic Hwf).
  pose proof (trace_inv_visited G heuristic Hwf _ _ Hvis) as Hti.
  destruct (expanded_bound G _ _ Hti) as [Hn Hs].
  destruct (ti_count _ _ _ Hti) as [Hst Hne _].
  split_and!; try done; [|apply Hti]. rewrite Hst, Hne. apply popped_length.
Qed.

Lemma steps_le_pushes (sf : sstate) tr :
  trace_inv G sf tr →
  steps sf + length (pq_contents (open sf)) = length (pushes tr).
Proof.
  intros Hti. rewrite (cnt_steps _ _ _ (ti_count _ _ _ Hti)).
  rewrite (Permutation_length (ti_queue _ _ _ Hti)), length_app. lia.
Qed.

End ClaimLemmas.

(** C2: on every well-formed graph, whatever its shape, the search loop
    terminates: [search_fuel G] iterations are enough and more fuel gives
    the same final state and trace.  The run pushes at most
    [1 + num_entries G] entries, that is at most [1 + 2 E] for the adjacency
    structure of [E] edges; it pops no more than it pushes, so the queue
    never holds more than that many entries; and no node is expanded
    twice. *)
Theorem search_terminates_with_linear_pushes
    `{OrderLaws C} {PQ : Type} `{!PriorityQueue C PQ}
    (G : GraphData C) (heuristic : nat → C) :
  wf_graph G →
  ∃ (sf : SearchState) (tr : list (event C)),
    run_search G heuristic (search_fuel G) = Done (sf, tr) ∧
    (∀ fuel, search_fuel G ≤ fuel →
       run_search G heuristic fuel = Done (sf, tr)) ∧
    length (pushes tr) ≤ 1 + num_entries G ∧
    (∀ edges,
       adjacencyList G = build_adjacency (numNodes G) edges →
       Forall (λ e, e.1.1 < numNodes G ∧ e.1.2 < numNodes G) edges →
       length (pushes tr) ≤ 1 + 2 * length edges) ∧
    steps sf + length (pq_contents (open sf)) = length (pushes tr) ∧
    (∀ (s : SearchState) tr0, visited G heuristic s tr0 →
       length (pq_contents (open s)) ≤ 1 + num_entries G) ∧
    NoDup (expanded tr).
Proof.
  intros Hwf.
  destruct (run_search_total G heuristic Hwf) as (sf & tr & Hrun & Hfin).
  assert (Hvis : visited G heuristic sf tr) by (by eapply run_search_visited).
  pose proof (trace_inv_visited G heuristic Hwf _ _ Hvis) as Hti.
  pose proof (pushes_bound G heuristic Hwf _ _ Hti) as Hpu.
  exists sf, tr. split_and!; [done| |done| | | |apply Hti].
  - intros fuel Hle. by eapply run_search_fuel_mono.
  - intros edges Hadj Hall.
    destruct (build_adjacency_entries (numNodes G) edges Hall) as [_ Hsum].
    unfold num_entries in Hpu. rewrite Hadj, Hsum in Hpu. done.
  - by apply (steps_le_pushes G).
  - intros s tr0 Hti0%(trace_inv_visited G heuristic Hwf).
    pose proof (pushes_bound G heuristic Hwf _ _ Hti0).
    pose proof (steps_le_pushes G _ _ Hti0). lia.
Qed.

(** C3: in every configuration the loop visits, [dist[v]] is the least [g]
    among the entries pushed for [v] so far (the infinity when there is
    none).  Popping an entry whose [g] exceeds [dist] of its node only
    removes it and counts the step: distances, closed flags and
    [nodesExpanded] are left as they were and nothing is pushed.  And an
    entry is only ever pushed for a node that is not marked closed. *)
Theorem dist_is_least_pushed_and_stale_dropped
    `{OrderLaws C} {PQ : Type} `{!PriorityQueue C PQ}
    (G : GraphData C) (heuristic : nat → C) :
  wf_graph G →
  (∀ (s : SearchState) tr, visited G heuristic s tr →
     length (dist s) = numNodes G ∧
     ∀ v x, dist s !! v = Some x → min_pushed tr v x) ∧
  (∀ (s : SearchState) cur,
     pq_is_empty (open s) = false → pq_top (open s) = Some cur →
     staleb (dist s) cur = true →
     step G heuristic s =
       (Continue (mkSearch (pq_pop (open s)) (dist s) (closed s)
                    (nodesExpanded s) (S (steps s))),
        [EvStale cur])) ∧
  (∀ (s : SearchState) tr s' evs e,
     at_loop_head G heuristic s tr →
     step G heuristic s = (Continue s', evs) →
     e ∈ pushes evs →
     closed s !! node e = Some false ∧ closed s' !! node e = Some false).
Proof.
  intros Hwf. split_and!.
  - intros s tr Hti%(trace_inv_visited G heuristic Hwf). split; apply Hti.
  - intros s cur. apply step_stale.
  - intros s tr s' evs e. by apply pushed_not_closed.
Qed.

(** C5: when the entry taken from the queue is for the goal and is not
    stale, the iteration counts the step and the expansion and leaves the
    loop at once: what remains is the queue without that entry, with the
    distances and closed flags untouched, so no neighbour was examined or
    pushed, and the goal is not marked closed. *)
Theorem goal_pop_ends_the_loop
    `{OrderLaws C} {PQ : Type} `{!PriorityQueue C PQ}
    (G : GraphData C) (heuristic : nat → C) :
  wf_graph G →
  ∀ (s : SearchState) tr cur,
    at_loop_head G heuristic s tr →
    pq_is_empty (open s) = false → pq_top (open s) = Some cur →
    node cur = goalNode G → staleb (dist s) cur = false →
    let s' := mkSearch (pq_pop (open s)) (dist s) (closed s)
                (S (nodesExpanded s)) (S (steps s)) in
    step G heuristic s = (Break s', [EvExpand cur]) ∧
    (∀ fuel, loop G heuristic (S fuel) s = Done (s', [EvExpand cur])) ∧
    closed s' !! goalNode G = Some false.
Proof.
  intros Hwf s tr cur Hhead Hemp Htop Hg Hlive s'.
  pose proof (step_goal G heuristic Hwf s tr cur Hhead Hemp Htop Hlive Hg)
    as Hstep.
  split_and!; [done| |].
  - intros fuel. simpl. by rewrite Hstep.
  - apply (trace_inv_head G heuristic Hwf s tr Hhead).
Qed.

(** C6: in the final state of every run [steps] is the number of entries
    taken from the queue, stale ones included, and [nodesExpanded] is the
    number of those that were not stale; the expanded nodes are pairwise
    distinct, so [nodesExpanded] is at most [steps] and at most [numNodes].
    Iteration by iteration: every pop adds one to [steps], a stale pop leaves
    [nodesExpanded] alone and any other pop adds one to it. *)
Theorem steps_and_expansions_counted
    `{OrderLaws C} {PQ : Type} `{!PriorityQueue C PQ}
    (G : GraphData C) (heuristic : nat → C) :
  wf_graph G →
  (∀ fuel (sf : SearchState) tr,
     run_search G heuristic fuel = Done (sf, tr) →
     steps sf = length (popped tr) ∧
     nodesExpanded sf = length (expanded tr) ∧
     steps sf = length (stale_pops tr) + nodesExpanded sf ∧
     NoDup (expanded tr) ∧
     nodesExpanded sf ≤ steps sf ∧
     nodesExpanded sf ≤ numNodes G) ∧
  (∀ (s : SearchState) r evs s',
     step G heuristic s = (r, evs) →
     r = Continue s' ∨ r = Break s' →
     steps s' = S (steps s) ∧
     ∃ cur, pq_top (open s) = Some cur ∧
       ((staleb (dist s) cur = true ∧ nodesExpanded s' = nodesExpanded s ∧
         evs = [EvStale cur]) ∨
        (staleb (dist s) cur = false ∧ nodesExpanded s' = S (nodesExpanded s) ∧
         ∃ evs', evs = EvExpand cur :: evs' ∧
                 stale_pops evs' = [] ∧ expanded evs' = []))).
Proof.
  intros Hwf. split.
  - intros fuel sf tr. by apply final_counts.
  - intros s r evs s' Hstep Hr. by eapply step_counts.
Qed.

(** C10: on a well-formed graph the queue first yields the start entry,
    with [g = 0], which is not stale; so the trace of every run begins with
    its push and its expansion, and every run, whether or not the goal can
    be reached, ends with [nodesExpanded ≥ 1] and [steps ≥ 1]. *)
Theorem first_pop_is_the_start
    `{OrderLaws C} {PQ : Type} `{!PriorityQueue C PQ}
    (G : GraphData C) (heuristic : nat → C) :
  wf_graph G →
  let e0 := mkState (startNode G) czero (heuristic (startNode G)) in
  (∃ s0 : SearchState,
     init_state G heuristic = Some s0 ∧
     pq_is_empty (open s0) = false ∧ pq_top (open s0) = Some e0 ∧
     staleb (dist s0) e0 = false) ∧
  ∃ (sf : SearchState) tr' r,
    run_search G heuristic (search_fuel G)
      = Done (sf, EvPush e0 :: EvExpand e0 :: tr') ∧
    search G heuristic (search_fuel G) = Done r ∧
    res_nodesExpanded r = nodesExpanded sf ∧ res_steps r = steps sf ∧
    1 ≤ nodesExpanded sf ∧ 1 ≤ steps sf.
Proof.
  intros Hwf e0. destruct (init_state_wf G heuristic Hwf) as [s0 Hs0]. split.
  - exists s0. split; [done|].
    destruct (first_step G heuristic Hwf s0 Hs0) as (r & evs & Hstep & s' & Hr).
    destruct (step_counts G heuristic s0 r _ Hstep s' Hr)
      as (_ & cur & Htop & [(_ & _ & [=])|(Hlive & _ & evs' & [= <- _] & _)]).
    split_and!; [|done..].
    destruct (pq_is_empty (open s0)) eqn:Hemp; [|done].
    unfold step in Hstep. rewrite Hemp in Hstep. done.
  - destruct (one_run G heuristic Hwf) as (sf & tr & pc & Hrun & Hvis & Hpc).
    pose proof Hrun as Hrun'. unfold run_search in Hrun'. rewrite Hs0 in Hrun'.
    destruct (loop G heuristic (search_fuel G) s0) as [[sf' trf]| |] eqn:Hloop;
      [|done..].
    injection Hrun' as -> <-.
    destruct (loop_first_event G heuristic Hwf _ _ _ _ Hs0 Hloop) as [tr' ->].
    exists sf, tr', (mkResult pc (nodesExpanded sf) (steps sf)).
    destruct (final_counts G heuristic Hwf _ _ _ Hrun) as (Hst & Hne & _).
    split_and!; [done|by eapply search_run|done|done|..].
    + rewrite Hne. unfold init_events, expanded. simpl. lia.
    + rewrite Hst. unfold init_events, popped. simpl. lia.
Qed.

(** C4: when no walk leads from start to goal, the run ends with an empty
    queue ([open.empty()] holds), no entry for the goal was ever taken from
    the queue, let alone expanded, [dist[goal]] is still the infinity, and
    the search returns normally with [pathCost = -1]. *)
Theorem unreachable_goal_gives_sentinel
    `{OrderLaws C} {PQ : Type} `{!PriorityQueue C PQ}
    (G : GraphData C) (heuristic : nat → C) :
  wf_graph G →
  ¬ reachable_from G (startNode G) (goalNode G) →
  ∃ (sf : SearchState) tr r,
    run_search G heuristic (search_fuel G) = Done (sf, tr) ∧
    pq_is_empty (open sf) = true ∧
    pq_contents (open sf) = [] ∧
    (∀ e, e ∈ popped tr → node e ≠ goalNode G) ∧
    (goalNode G ∉ expanded tr) ∧
    dist sf !! goalNode G = Some cinf ∧
    search G heuristic (search_fuel G) = Done r ∧
    res_pathCost r = cminus1.
Proof.
  intros Hwf Hunreach.
  destruct (run_search_total G heuristic Hwf) as (sf & tr & Hrun & Hfin).
  assert (Hvis : visited G heuristic sf tr) by (by eapply run_search_visited).
  pose proof (trace_inv_visited G heuristic Hwf _ _ Hvis) as Hti.
  assert (Hnopush : ∀ e, e ∈ pushes tr → node e ≠ goalNode G).
  { intros e He Hg. apply Hunreach. exists (g e). rewrite <- Hg.
    by apply (ti_push _ _ _ Hti). }
  assert (Hpop : ∀ e, e ∈ popped tr → node e ≠ goalNode G).
  { intros e He. by eapply Hnopush, popped_pushed. }
  destruct (path_cost_defined G heuristic Hwf sf tr Hvis) as (dg & Hdg & Hpc).
  assert (dg = cinf) as ->.
  { destruct (ti_min _ _ _ Hti _ _ Hdg) as [_ [[-> _]|(e & He & Hn & _)]];
      [done|]. by destruct (Hnopush e He). }
  assert (Hself : ceqb cinf cinf = true) by (by apply ceqb_eq).
  rewrite Hself in Hpc. simpl in Hpc.
  assert (Hexit : after_exit G heuristic sf tr).
  { destruct Hfin as [?|(s & tr0 & evs & Hhead & Hstep & ->)]; [done|].
    exfalso.
    pose proof (at_loop_head_inv G heuristic Hwf _ _ Hhead) as Hinv.
    pose proof (step_case_eq G heuristic Hwf _ _ _ _ Hinv Hstep) as Hcase.
    inversion Hcase as [| |cur Hperm Hmin Hlive Hg|]; subst.
    apply (Hpop cur); [|done]. rewrite popped_app. apply elem_of_app. right.
    by left. }
  destruct Hexit as [Hhead Hstep].
  pose proof (at_loop_head_inv G heuristic Hwf _ _ Hhead) as Hinv.
  pose proof (step_case_eq G heuristic Hwf _ _ _ _ Hinv Hstep) as Hcase.
  inversion Hcase as [Hnil| | |]; subst.
  exists sf, tr, (mkResult cminus1 (nodesExpanded sf) (steps sf)).
  split_and!; try done.
  - by apply pq_is_empty_spec.
  - intros (e & He & Hg)%elem_of_expanded. apply (Hpop e); [|done].
    unfold popped. apply list_elem_of_omap. by exists (EvExpand e).
  - by apply search_run with tr.
Qed.

Section OptimalRun.
Context `{CostLaws C}.
Variable G : GraphData C.

Lemma shortest_dist_unique s t d1 d2 :
  shortest_dist G s t d1 → shortest_dist G s t d2 → d1 = d2.
Proof.
  intros [Hw1 Hm1] [Hw2 Hm2]. apply cle_antisym; [by apply Hm1|by apply Hm2].
Qed.

(** The zero heuristic of Dijkstra's algorithm is consistent as soon as no
    weight is negative. *)
Lemma zero_heuristic_consistent :
  nonneg_weights G →
  consistent G (λ _, czero) ∧ finite_heuristic G (λ _ : nat, czero).
Proof.
  intros Hnn. split.
  - intros u v w Hedge. rewrite cadd_zero_r. by apply (Hnn u v w).
  - intros v _. apply czero_finite.
Qed.


Context {PQ : Type} `{!PriorityQueue C PQ}.
Variable heuristic : nat → C.

(** With a consistent heuristic and a reachable goal the run ends at the
    [break], and what line 185 returns is the length of a shortest walk. *)
Lemma search_optimal :
  wf_graph G → nonneg_weights G →
  consistent G heuristic → finite_heuristic G heuristic →
  reachable_from G (startNode G) (goalNode G) →
  ∃ (sf : @SearchState C PQ) tr,
    run_search G heuristic (search_fuel G) = Done (sf, tr) ∧
    after_break G heuristic sf tr ∧
    ∃ dg,
      search G heuristic (search_fuel G)
        = Done (mkResult dg (nodesExpanded sf) (steps sf)) ∧
      clt dg cinf ∧ cle czero dg ∧
      shortest_dist G (startNode G) (goalNode G) dg.
Proof.
  intros Hwf Hnn Hcons Hfin Hreach.
  destruct (run_search_total G heuristic Hwf) as (sf & tr & Hrun & Hend).
  exists sf, tr. split; [done|].
  assert (Hbreak : after_break G heuristic sf tr).
  { destruct Hend as [Hexit|?]; [|done].
    destruct (exit_unreachable G heuristic Hwf Hnn Hcons Hfin sf tr Hexit Hreach). }
  split; [done|].
  destruct (break_shortest G heuristic Hwf Hnn Hcons Hfin sf tr Hbreak)
    as (dg & Hdg & Hdfin & Hshort).
  exists dg. split_and!; [|done| |done].
  - apply search_run with tr; [done|]. unfold path_cost_of. rewrite Hdg. simpl.
    assert (ceqb dg cinf = false) as ->; [|done].
    apply ceqb_neq. by apply clt_neq.
  - destruct Hshort as [Hw _]. by eapply walk_nonneg.
Qed.

End OptimalRun.


(** ** The Euclidean heuristic is consistent on Euclidean graphs *)

Ltac rcost_cases :=
  repeat match goal with
         | x : rcost |- _ => destruct x
         end;
  unfold clt, cle in *; simpl in *;
  repeat match goal with
         | H : context [Rlt_dec ?a ?b] |- _ => destruct (Rlt_dec a b)
         | |- context [Rlt_dec ?a ?b] => destruct (Rlt_dec a b)
         | H : context [Req_dec_T ?a ?b] |- _ => destruct (Req_dec_T a b)
         | |- context [Req_dec_T ?a ?b] => destruct (Req_dec_T a b)
         end;
  try done.

#[export] Instance rcost_order : OrderLaws rcost.
Proof.
  split.
  - intros a b. rcost_cases; split; try done; [by intros; subst|congruence].
  - intros a. rcost_cases. lra.
  - intros a b c ? ?. rcost_cases. lra.
  - intros a b. rcost_cases; auto.
    + destruct (Rtotal_order x x0) as [?|[->|?]]; [lra|auto|lra].
  - intros a. by rcost_cases.
  - by rcost_cases.
Qed.

#[export] Instance rcost_laws : CostLaws rcost.
Proof.
  split.
  - apply _.
  - rcost_cases. lra.
  - intros a b. rcost_cases. simpl. f_equal. lra.
  - intros a b c. rcost_cases. simpl. f_equal. lra.
  - intros a. rcost_cases. simpl. f_equal. lra.
  - intros a b ? ?. by rcost_cases.
  - intros a b c ?. rcost_cases. lra.
  - intros a b c ? ?. rcost_cases. lra.
Qed.

Lemma euclidean_consistent (G : GraphData rcost) :
  wf_graph G → wf_coordinates G → euclidean_weights G →
  consistent G (euclidean (coordinates G) (goalNode G)) ∧
  finite_heuristic G (euclidean (coordinates G) (goalNode G)).
Proof.
  intros Hwf [Hlen Hnum] Hw.
  assert (Hat : ∀ v, v < numNodes G →
            ∃ x y, coordinates G !! v = Some (RFin x, RFin y)).
  { intros v Hv. destruct (lookup_lt_is_Some_2 (coordinates G) v) as [p Hp].
    - by rewrite Hlen.
    - destruct (Hnum v p Hp) as (x & y & ->). eauto. }
  destruct (Hat (goalNode G)) as (gx & gy & Hg); [apply Hwf|].
  split.
  - intros u v w Hedge. pose proof (Hw u v w Hedge) as Hle.
    assert (Hu : u < numNodes G).
    { destruct Hedge as (adj & Hadj & _). apply lookup_lt_Some in Hadj.
      by rewrite (wf_adj_length G Hwf) in Hadj. }
    assert (Hv : v < numNodes G).
    { destruct Hedge as (adj & Hadj & Hin). by eapply (wf_nbr G Hwf). }
    destruct (Hat u Hu) as (xu & yu & Hcu).
    destruct (Hat v Hv) as (xv & yv & Hcv).
    unfold euclidean in *. rewrite ?Hcu, ?Hcv, ?Hg in *.
    destruct w as [w|]; [|done].
    pose proof (triangle xu yu gx gy xv yv) as Htri.
    unfold dist_euc, Rsqr in Htri.
    unfold cle in *. simpl in *.
    repeat match goal with
           | H : context [Rlt_dec ?a ?b] |- _ => destruct (Rlt_dec a b)
           | |- context [Rlt_dec ?a ?b] => destruct (Rlt_dec a b)
           end; try done.
    lra.
  - intros v Hv. destruct (Hat v Hv) as (x & y & Hc).
    unfold euclidean. by rewrite Hc, Hg.
Qed.

(** Optimality for the heuristic the program passes: on a graph laid out
    in the plane, none of whose edges is shorter than the straight line
    between its ends, the search guided by the Euclidean distance returns
    the length of a shortest walk, as Dijkstra's algorithm does. *)
Corollary astar_euclidean_shortest {PQ : Type} `{!PriorityQueue rcost PQ}
    (G : GraphData rcost) :
  wf_graph G → wf_coordinates G → nonneg_weights G → euclidean_weights G →
  reachable_from G (startNode G) (goalNode G) →
  ∃ r r0,
    search (PQ:=PQ) G (euclidean (coordinates G) (goalNode G)) (search_fuel G)
      = Done r ∧
    dijkstra (PQ:=PQ) G (search_fuel G) = Done r0 ∧
    res_pathCost r = res_pathCost r0 ∧
    shortest_dist G (startNode G) (goalNode G) (res_pathCost r).
Proof.
  intros Hwf Hco Hnn Hew Hreach.
  destruct (euclidean_consistent G Hwf Hco Hew) as [Hcons Hfin].
  destruct (search_optimal (PQ:=PQ) G _ Hwf Hnn Hcons Hfin Hreach)
    as (sf & tr & _ & _ & dg & Hsearch & _ & _ & Hshort).
  destruct (zero_heuristic_consistent G Hnn) as [Hcons0 Hfin0].
  destruct (search_optimal (PQ:=PQ) G (λ _, czero) Hwf Hnn Hcons0 Hfin0 Hreach)
    as (sf0 & tr0 & _ & _ & dg0 & Hsearch0 & _ & _ & Hshort0).
  eexists _, _. split_and!; [exact Hsearch|exact Hsearch0|..]; simpl.
  - by eapply shortest_dist_unique.
  - done.
Qed.

(** ** Claims about the harness *)

Section HarnessClaims.
Context `{OrderLaws C} {PQ : Type} `{!PriorityQueue C PQ}.
Variable G : GraphData C.
Variable heuristic : nat → C.
Hypothesis Hwf : wf_graph G.
Local Abbreviation sstate := (@SearchState C PQ).

(** The harness always completes; its totals and its log of runs. *)
Lemma benchmark_spec runs clock :
  ∃ (sf : sstate) tr pc,
    run_search G heuristic (search_fuel G) = Done (sf, tr) ∧
    path_cost_of G sf = Some pc ∧
    let t := mkTotals (total_time clock 0 runs) (runs * nodesExpanded sf)
               (runs * steps sf) (if decide (0 < runs) then pc else czero) in
    benchmark G heuristic runs clock
      = Done (make_report runs t, t, replicate runs sf).
Proof using Type* Hwf.
  destruct (one_run G heuristic Hwf) as (sf & tr & pc & Hrun & _ & Hpc).
  exists sf, tr, pc. split_and!; [done..|]. simpl. unfold benchmark.
  rewrite (for_runs_spec G heuristic clock sf tr pc runs 0 _ _ Hrun Hpc).
  simpl. rewrite Z.add_0_l.
  destruct (decide (0 < runs)).
  - by rewrite decide_True by done.
  - by rewrite decide_False by lia.
Qed.


End HarnessClaims.

(** C7: the search is a function of its inputs.  Two executions on the
    same graph and heuristic, whatever fuel each was given, return the same
    [pathCost], [nodesExpanded] and [steps].  Every run of the harness ends
    in the same final state, so each of them yields the [pathCost],
    [nodesExpanded] and [steps] of a single search; and what the clock
    measures has no influence on the runs, on the captured [pathCost] or on
    the totals of [nodesExpanded] and [steps]. *)
Theorem search_is_deterministic
    `{OrderLaws C} {PQ : Type} `{!PriorityQueue C PQ}
    (G : GraphData C) (heuristic : nat → C) :
  wf_graph G →
  (∀ fuel1 fuel2 r1 r2,
     search G heuristic fuel1 = Done r1 →
     search G heuristic fuel2 = Done r2 → r1 = r2) ∧
  (∀ runs clock rep t (log : list SearchState),
     benchmark G heuristic runs clock = Done (rep, t, log) →
     ∃ r, search G heuristic (search_fuel G) = Done r ∧
          length log = runs ∧
          ∀ i si, log !! i = Some si →
            path_cost_of G si = Some (res_pathCost r) ∧
            nodesExpanded si = res_nodesExpanded r ∧
            steps si = res_steps r) ∧
  (∀ runs clock1 clock2 rep1 t1 (log1 : list SearchState) rep2 t2 log2,
     benchmark G heuristic runs clock1 = Done (rep1, t1, log1) →
     benchmark G heuristic runs clock2 = Done (rep2, t2, log2) →
     log1 = log2 ∧ pathCost t1 = pathCost t2 ∧
     totalNodesExpanded t1 = totalNodesExpanded t2 ∧
     totalSteps t1 = totalSteps t2).
Proof.
  intros Hwf. split_and!.
  - intros fuel1 fuel2 r1 r2 H1%(search_unique G heuristic Hwf)
      H2%(search_unique G heuristic Hwf). congruence.
  - intros runs clock rep t log Hb.
    destruct (benchmark_spec G heuristic Hwf runs clock)
      as (sf & tr & pc & Hrun & Hpc & Hb').
    simpl in Hb'. rewrite Hb' in Hb. injection Hb as _ _ <-.
    exists (mkResult pc (nodesExpanded sf) (steps sf)).
    split_and!; [by eapply search_run|by rewrite length_replicate|].
    intros i si [-> _]%lookup_replicate. done.
  - intros runs clock1 clock2 rep1 t1 log1 rep2 t2 log2 Hb1 Hb2.
    destruct (benchmark_spec G heuristic Hwf runs clock1)
      as (sf & tr & pc & Hrun & Hpc & Hb1').
    destruct (benchmark_spec G heuristic Hwf runs clock2)
      as (sf' & tr' & pc' & Hrun' & Hpc' & Hb2').
    simpl in Hb1', Hb2'. rewrite Hb1' in Hb1. rewrite Hb2' in Hb2.
    injection Hb1 as _ <- <-. injection Hb2 as _ <- <-.
    assert (sf' = sf) as -> by congruence.
    assert (pc' = pc) as -> by congruence. done.
Qed.


(** C9: the figure printed as "Min execution time" is the total time
    divided by the number of runs (and by 10^6, to milliseconds): it equals
    the average execution time printed on the line before, and it is not the
    least of the measured durations (with two runs measured at 0 ns and
    2 ns it reads 1 ns, not 0 ns). *)
Theorem min_time_is_the_average `{Cost C} :
  (∀ runs (t : Totals (C:=C)),
     (minTimeMs (make_report runs t)
      == inject_Z (totalNanoseconds t) / inject_Z (Z.of_nat runs) / 1000000)%Q ∧
     (avgTimeMs (make_report runs t) == avgTimeNs (make_report runs t) / 1000000)%Q ∧
     (minTimeMs (make_report runs t) == avgTimeMs (make_report runs t))%Q) ∧
  (∀ {PQ : Type} `{!PriorityQueue C PQ} (G : GraphData C) heuristic clock
     rep t (log : list (SearchState (PQ:=PQ))),
     runAStar G heuristic clock = Done (rep, t, log) →
     rep = make_report NUM_RUNS t ∧
     (minTimeMs rep == avgTimeMs rep)%Q) ∧
  (∃ clock : nat → Z,
     let t := mkTotals (total_time clock 0 2) 0 0 czero in
     ¬ (minTimeMs (make_report 2 t) == inject_Z (least_time clock 2) / 1000000)%Q).
Proof.
  assert (Heq : ∀ runs (t : Totals (C:=C)),
    (minTimeMs (make_report runs t) == avgTimeMs (make_report runs t))%Q).
  { intros runs t. unfold make_report. simpl. unfold Qdiv.
    rewrite Qinv_mult_distr. ring. }
  split_and!.
  - intros runs t. split_and!; [|done|apply Heq].
    rewrite Heq. done.
  - intros PQ HPQ G heuristic clock rep t log Hrun.
    unfold runAStar, benchmark in Hrun.
    destruct (for_runs G heuristic clock NUM_RUNS 0 _) as [[t' log']| |];
      [|done..].
    injection Hrun as <- <- <-. split; [done|apply Heq].
  - exists (λ run, match run with 0 => 0%Z | _ => 2%Z end). by vm_compute.
Qed.

(** * Concrete runs *)

Ltac graph_edges u Hadj Hin :=
  do 5 (try (destruct u as [|u];
             [vm_compute in Hadj; injection Hadj as <-;
              repeat (apply elem_of_cons in Hin as [Hin|Hin];
                      [injection Hin as -> ->|]);
              try (by apply elem_of_nil in Hin)|]));
  try (vm_compute in Hadj; discriminate).

Ltac solve_wf :=
  split; [reflexivity|vm_compute; lia|vm_compute; lia|];
  let u := fresh "u" in let adj := fresh "adj" in
  let Hadj := fresh "Hadj" in let Hin := fresh "Hin" in
  intros u adj ? ? Hadj Hin; graph_edges u Hadj Hin; vm_compute; lia.

Ltac solve_edges :=
  let u := fresh "u" in let adj := fresh "adj" in
  let Hadj := fresh "Hadj" in let Hin := fresh "Hin" in
  intros u ? ? (adj & Hadj & Hin); graph_edges u Hadj Hin; by vm_compute.

Lemma rtriangle_wf : wf_graph rtriangle.
Proof. solve_wf. Qed.

Lemma rtriangle_nonneg : nonneg_weights rtriangle.
Proof. solve_edges. Qed.




Lemma two_islands_wf : wf_graph two_islands.
Proof. solve_wf. Qed.

Lemma two_islands_unreachable : ¬ reachable_from two_islands 0 1.
Proof.
  intros [c Hwalk]. remember 1 as t eqn:Ht.
  destruct Hwalk as [|u v c w _ (adj & Hadj & Hin)]; [done|].
  graph_edges u Hadj Hin.
Qed.

Lemma lone_node_wf : wf_graph lone_node.
Proof. solve_wf. Qed.

Lemma detour_wf : wf_graph detour.
Proof. solve_wf. Qed.


Example two_islands_search :
  search (PQ:=zqueue) two_islands zero_h (search_fuel two_islands)
  = Done (mkResult (ZFin (-1)) 1 1).
Proof. reflexivity. Qed.

Example lone_node_search :
  search (PQ:=zqueue) lone_node zero_h (search_fuel lone_node)
  = Done (mkResult (ZFin 0) 1 1).
Proof. reflexivity. Qed.

(** Optimality needs the consistency of the heuristic: with weights below
    the straight-line distances the search stops at the direct edge of
    weight 3 although a walk of length 2 exists. *)
Example inconsistent_heuristic_misleads :
  search (PQ:=zqueue) misled misled_h (search_fuel misled)
    = Done (mkResult (ZFin 3) 2 2) ∧
  dijkstra (PQ:=zqueue) misled (search_fuel misled)
    = Done (mkResult (ZFin 2) 3 3) ∧
  ¬ consistent misled misled_h.
Proof.
  split_and!; [reflexivity..|].
  intros Hcons. specialize (Hcons 1 2 (ZFin 1)).
  assert (Hedge : edge misled 1 2 (ZFin 1)).
  { eexists. split; [reflexivity|]. vm_compute. right. left. }
  by specialize (Hcons Hedge).
Qed.

Example detour_search :
  search (PQ:=zqueue) detour zero_h (search_fuel detour)
  = Done (mkResult (ZFin 12) 4 5).
Proof. reflexivity. Qed.

(** ** The triangle of the specification *)

Lemma walk_lower_bound `{CostLaws C} (G : GraphData C) (s : nat)
    (potential : nat → C) :
  cle (potential s) czero →
  (∀ u v w, edge G u v w → cle (potential v) (cadd (potential u) w)) →
  ∀ v c, walk G s v c → cle (potential v) c.
Proof.
  intros Hs Hedge v c. induction 1 as [|u v c w _ IH He]; [done|].
  eapply cle_trans; [by apply Hedge|]. by apply cadd_mono_l.
Qed.

Lemma sqrt_le_square (x w : R) : (0 <= w → x <= w * w → sqrt x <= w)%R.
Proof.
  intros Hw Hx. rewrite <- (sqrt_square w Hw). by apply sqrt_le_1_alt.
Qed.

Ltac real_edges u Hadj Hin :=
  do 4 (try (destruct u as [|u];
             [cbv [spec_triangle adjacencyList build_adjacency foldl add_edge
                   alter list_alter replicate app lookup list_lookup] in Hadj;
              injection Hadj as <-;
              repeat (apply elem_of_cons in Hin as [Hin|Hin];
                      [injection Hin as -> ->|]);
              try (by apply elem_of_nil in Hin)|]));
  try (cbv in Hadj; discriminate).

Lemma spec_triangle_wf : wf_graph spec_triangle.
Proof.
  split; [reflexivity|cbv; lia|cbv; lia|].
  intros u adj v w Hadj Hin. real_edges u Hadj Hin; cbv; lia.
Qed.

Ltac real_order :=
  unfold cle, clt; simpl;
  repeat match goal with
         | |- context [Rlt_dec ?a ?b] => destruct (Rlt_dec a b)
         end;
  try done; try lra.

Lemma spec_triangle_nonneg : nonneg_weights spec_triangle.
Proof.
  intros u v w (adj & Hadj & Hin). real_edges u Hadj Hin; split; real_order.
Qed.

Lemma spec_triangle_coordinates : wf_coordinates spec_triangle.
Proof.
  split; [done|]. intros [|[|[|i]]] p; simpl; intros [= <-]; eauto.
Qed.

Lemma spec_triangle_euclidean : euclidean_weights spec_triangle.
Proof.
  intros u v w (adj & Hadj & Hin).
  real_edges u Hadj Hin; unfold euclidean; simpl; unfold cle; simpl;
    (destruct (Rlt_dec _ _) as [Hlt|]; [|done]);
    exfalso; apply (Rlt_not_le _ _ Hlt); apply sqrt_le_square; lra.
Qed.

Lemma spec_triangle_shortest : shortest_dist spec_triangle 0 2 (RFin 2).
Proof.
  split.
  - assert (Hc : RFin 2 = cadd (cadd czero (RFin 1)) (RFin 1)).
    { simpl. f_equal. lra. }
    rewrite Hc. apply (walk_step spec_triangle 0 1 2).
    + apply (walk_step spec_triangle 0 0 1); [constructor|].
      eexists. split; [reflexivity|]. left.
    + eexists. split; [reflexivity|]. right. left.
  - apply (walk_lower_bound spec_triangle 0
             (λ v, match v with 0 => RFin 0 | 1 => RFin 1 | _ => RFin 2 end)).
    + real_order.
    + intros u v w (adj & Hadj & Hin). real_edges u Hadj Hin; real_order.
Qed.

(** The triangle of the specification: nodes at (0,0), (1,0), (1,1), edges
    of weight 1, 1 and 2.5, from node 0 to node 2.  The search guided by
    the Euclidean distance returns 2, the way through node 1. *)
Example spec_triangle_path_cost :
  ∃ r, search (PQ:=list (State rcost)) spec_triangle
         (euclidean (coordinates spec_triangle) (goalNode spec_triangle))
         (search_fuel spec_triangle) = Done r ∧
       res_pathCost r = RFin 2.
Proof.
  destruct (astar_euclidean_shortest (PQ:=list (State rcost)) spec_triangle)
    as (r & r0 & Hr & _ & _ & Hshort).
  - apply spec_triangle_wf.
  - apply spec_triangle_coordinates.
  - apply spec_triangle_nonneg.
  - apply spec_triangle_euclidean.
  - exists (RFin 2). apply spec_triangle_shortest.
  - exists r. split; [done|].
    eapply shortest_dist_unique; [exact Hshort|apply spec_triangle_shortest].
Qed.

(** ** The theorems at concrete inputs *)


Lemma search_terminates_with_linear_pushes_witness :
  wf_graph detour ∧
  ∃ (sf : SearchState (PQ:=zqueue)) (tr : list (event zcost)),
    run_search detour zero_h (search_fuel detour) = Done (sf, tr) ∧
    (∀ fuel, search_fuel detour ≤ fuel →
       run_search detour zero_h fuel = Done (sf, tr)) ∧
    length (pushes tr) ≤ 1 + num_entries detour ∧
    (∀ edges,
       adjacencyList detour = build_adjacency (numNodes detour) edges →
       Forall (λ e, e.1.1 < numNodes detour ∧ e.1.2 < numNodes detour) edges →
       length (pushes tr) ≤ 1 + 2 * length edges) ∧
    steps sf + length (pq_contents (open sf)) = length (pushes tr) ∧
    (∀ (s : SearchState (PQ:=zqueue)) tr0, visited detour zero_h s tr0 →
       length (pq_contents (open s)) ≤ 1 + num_entries detour) ∧
    NoDup (expanded tr).
Proof.
  split; [apply detour_wf|].
  exact (search_terminates_with_linear_pushes detour zero_h detour_wf).
Defined.

Lemma dist_is_least_pushed_and_stale_dropped_witness :
  wf_graph detour ∧
  (∀ (s : SearchState (PQ:=zqueue)) tr, visited detour zero_h s tr →
     length (dist s) = numNodes detour ∧
     ∀ v x, dist s !! v = Some x → min_pushed tr v x) ∧
  (∀ (s : SearchState (PQ:=zqueue)) cur,
     pq_is_empty (open s) = false → pq_top (open s) = Some cur →
     staleb (dist s) cur = true →
     step detour zero_h s =
       (Continue (mkSearch (pq_pop (open s)) (dist s) (closed s)
                    (nodesExpanded s) (S (steps s))),
        [EvStale cur])) ∧
  (∀ (s : SearchState (PQ:=zqueue)) tr s' evs e,
     at_loop_head detour zero_h s tr →
     step detour zero_h s = (Continue s', evs) →
     e ∈ pushes evs →
     closed s !! node e = Some false ∧ closed s' !! node e = Some false).
Proof.
  split; [apply detour_wf|].
  exact (dist_is_least_pushed_and_stale_dropped detour zero_h detour_wf).
Defined.

Lemma unreachable_goal_gives_sentinel_witness :
  wf_graph two_islands ∧
  ¬ reachable_from two_islands (startNode two_islands) (goalNode two_islands) ∧
  ∃ (sf : SearchState (PQ:=zqueue)) tr r,
    run_search two_islands zero_h (search_fuel two_islands) = Done (sf, tr) ∧
    pq_is_empty (open sf) = true ∧
    pq_contents (open sf) = [] ∧
    (∀ e, e ∈ popped tr → node e ≠ goalNode two_islands) ∧
    (goalNode two_islands ∉ expanded tr) ∧
    dist sf !! goalNode two_islands = Some cinf ∧
    search two_islands zero_h (search_fuel two_islands) = Done r ∧
    res_pathCost r = cminus1.
Proof.
  split_and!; [apply two_islands_wf|apply two_islands_unreachable|].
  exact (unreachable_goal_gives_sentinel two_islands zero_h two_islands_wf
           two_islands_unreachable).
Defined.

(** The third iteration on [rtriangle] takes the goal entry with [g = 7]. *)
Lemma goal_pop_ends_the_loop_witness :
  wf_graph rtriangle ∧
  ∃ (s : SearchState (PQ:=zqueue)) tr cur,
    at_loop_head rtriangle rtriangle_h s tr ∧
    pq_is_empty (open s) = false ∧ pq_top (open s) = Some cur ∧
    node cur = goalNode rtriangle ∧ g cur = ZFin 7 ∧
    staleb (dist s) cur = false ∧
    let s' := mkSearch (pq_pop (open s)) (dist s) (closed s)
                (S (nodesExpanded s)) (S (steps s)) in
    step rtriangle rtriangle_h s = (Break s', [EvExpand cur]) ∧
    (∀ fuel, loop rtriangle rtriangle_h (S fuel) s = Done (s', [EvExpand cur])) ∧
    closed s' !! goalNode rtriangle = Some false.
Proof.
  split; [apply rtriangle_wf|].
  assert (Hhead : ∃ (s : SearchState (PQ:=zqueue)) tr,
            at_loop_head rtriangle rtriangle_h s tr ∧
            pq_top (open s) = Some (mkState 2 (ZFin 7) (ZFin 7)) ∧
            pq_is_empty (open s) = false ∧
            staleb (dist s) (mkState 2 (ZFin 7) (ZFin 7)) = false).
  { eexists _, _. split.
    - eapply head_next; [eapply head_next; [apply head_init|]|];
        vm_compute; reflexivity.
    - by vm_compute. }
  destruct Hhead as (s & tr & Hhead & Htop & Hemp & Hlive).
  exists s, tr, (mkState 2 (ZFin 7) (ZFin 7)).
  split_and!; [done..|].
  exact (goal_pop_ends_the_loop rtriangle rtriangle_h rtriangle_wf s tr _
           Hhead Hemp Htop eq_refl Hlive).
Defined.

Lemma steps_and_expansions_counted_witness :
  wf_graph detour ∧
  (∀ fuel (sf : SearchState (PQ:=zqueue)) tr,
     run_search detour zero_h fuel = Done (sf, tr) →
     steps sf = length (popped tr) ∧
     nodesExpanded sf = length (expanded tr) ∧
     steps sf = length (stale_pops tr) + nodesExpanded sf ∧
     NoDup (expanded tr) ∧
     nodesExpanded sf ≤ steps sf ∧
     nodesExpanded sf ≤ numNodes detour) ∧
  (∀ (s : SearchState (PQ:=zqueue)) r evs s',
     step detour zero_h s = (r, evs) →
     r = Continue s' ∨ r = Break s' →
     steps s' = S (steps s) ∧
     ∃ cur, pq_top (open s) = Some cur ∧
       ((staleb (dist s) cur = true ∧ nodesExpanded s' = nodesExpanded s ∧
         evs = [EvStale cur]) ∨
        (staleb (dist s) cur = false ∧ nodesExpanded s' = S (nodesExpanded s) ∧
         ∃ evs', evs = EvExpand cur :: evs' ∧
                 stale_pops evs' = [] ∧ expanded evs' = []))).
Proof.
  split; [apply detour_wf|].
  exact (steps_and_expansions_counted detour zero_h detour_wf).
Defined.

Lemma search_is_deterministic_witness :
  wf_graph rtriangle ∧
  (∀ fuel1 fuel2 r1 r2,
     search (PQ:=zqueue) rtriangle rtriangle_h fuel1 = Done r1 →
     search (PQ:=zqueue) rtriangle rtriangle_h fuel2 = Done r2 → r1 = r2) ∧
  (∀ runs clock rep t (log : list (SearchState (PQ:=zqueue))),
     benchmark rtriangle rtriangle_h runs clock = Done (rep, t, log) →
     ∃ r, search rtriangle rtriangle_h (search_fuel rtriangle) = Done r ∧
          length log = runs ∧
          ∀ i si, log !! i = Some si →
            path_cost_of rtriangle si = Some (res_pathCost r) ∧
            nodesExpanded si = res_nodesExpanded r ∧
            steps si = res_steps r) ∧
  (∀ runs clock1 clock2 rep1 t1 (log1 : list (SearchState (PQ:=zqueue)))
     rep2 t2 log2,
     benchmark rtriangle rtriangle_h runs clock1 = Done (rep1, t1, log1) →
     benchmark rtriangle rtriangle_h runs clock2 = Done (rep2, t2, log2) →
     log1 = log2 ∧ pathCost t1 = pathCost t2 ∧
     totalNodesExpanded t1 = totalNodesExpanded t2 ∧
     totalSteps t1 = totalSteps t2).
Proof.
  split; [apply rtriangle_wf|].
  exact (search_is_deterministic rtriangle rtriangle_h rtriangle_wf).
Defined.


Lemma first_pop_is_the_start_witness :
  wf_graph two_islands ∧
  let e0 := mkState (startNode two_islands) czero (zero_h (startNode two_islands)) in
  (∃ s0 : SearchState (PQ:=zqueue),
     init_state two_islands zero_h = Some s0 ∧
     pq_is_empty (open s0) = false ∧ pq_top (open s0) = Some e0 ∧
     staleb (dist s0) e0 = false) ∧
  ∃ (sf : SearchState (PQ:=zqueue)) tr' r,
    run_search two_islands zero_h (search_fuel two_islands)
      = Done (sf, EvPush e0 :: EvExpand e0 :: tr') ∧
    search two_islands zero_h (search_fuel two_islands) = Done r ∧
    res_nodesExpanded r = nodesExpanded sf ∧ res_steps r = steps sf ∧
    1 ≤ nodesExpanded sf ∧ 1 ≤ steps sf.
Proof.
  split; [apply two_islands_wf|].
  exact (first_pop_is_the_start two_islands zero_h two_islands_wf).
Defined.

(** What the harness prints for [rtriangle]: the search values of one run,
    and the same figure twice for the time. *)
Example rtriangle_report :
  ∃ rep t log,
    runAStar (PQ:=zqueue) rtriangle rtriangle_h sample_clock = Done (rep, t, log) ∧
    length log = 100 ∧
    (avgNodesExpanded rep == 3)%Q ∧ (avgSteps rep == 3)%Q ∧
    (avgTimeNs rep == 2099 # 2)%Q ∧
    (avgTimeMs rep == 2099 # 2000000)%Q ∧
    (minTimeMs rep == 2099 # 2000000)%Q ∧
    rep_pathCost rep = ZFin 7.
Proof. eexists _, _, _. split; [vm_compute; reflexivity|]. by vm_compute. Qed.

(** * Further properties of the code *)

(** ** What one iteration does to distances and closed flags *)

Section Relaxation.
Context `{OrderLaws C} {PQ : Type} `{!PriorityQueue C PQ}.
Variable G : GraphData C.
Variable heuristic : nat → C.
Local Abbreviation sstate := (@SearchState C PQ).

(** The inner loop of lines 164-172 keeps the length of the distance
    vector, never raises an entry, and writes only at nodes that are not
    closed. *)
Lemma explore_mono clo cur adj : ∀ d (q : PQ) d' q' evs,
  explore heuristic clo cur adj d q = Some (d', q', evs) →
  length d' = length d ∧
  ∀ v x, d !! v = Some x →
    ∃ x', d' !! v = Some x' ∧ cle x' x ∧ (clo !! v = Some true → x' = x).
Proof.
  induction adj as [|[nbr w] adj IH]; intros d q d' q' evs Hex; simpl in Hex.
  { injection Hex as <- <- <-. split; [done|]. intros v x Hv.
    exists x. split_and!; [done|apply cle_refl|done]. }
  destruct (d !! nbr) as [dn|] eqn:Hdn; [|done]. simpl in Hex.
  destruct (cltb _ dn) eqn:Hlt; [|by eapply IH].
  destruct (clo !! nbr) as [[]|] eqn:Hc; simpl in Hex; [by eapply IH| |done].
  destruct (explore heuristic clo cur adj _ _) as [[[d1 q1] evs1]|] eqn:Hex1;
    [|done].
  simpl in Hex. injection Hex as <- <- <-.
  destruct (IH _ _ _ _ _ Hex1) as [Hlen Hmono].
  rewrite length_insert in Hlen. split; [done|]. intros v x Hv.
  destruct (decide (v = nbr)) as [->|Hne].
  - assert (x = dn) as -> by congruence.
    destruct (Hmono nbr (cadd (g cur) w)) as (x' & Hx' & Hle & _).
    { apply list_lookup_insert_eq. by eapply lookup_lt_Some. }
    exists x'. split_and!; [done| |congruence].
    eapply cle_trans; [done|]. by apply clt_asym.
  - apply Hmono. by rewrite list_lookup_insert_ne.
Qed.

(** After the inner loop every neighbour that is not closed has a distance
    of at most [cur.g + w]. *)
Lemma explore_relaxed clo cur adj : ∀ d (q : PQ) d' q' evs,
  explore heuristic clo cur adj d q = Some (d', q', evs) →
  ∀ v w, (v, w) ∈ adj →
    ∃ x', d' !! v = Some x' ∧
          (cle x' (cadd (g cur) w) ∨ clo !! v = Some true).
Proof.
  induction adj as [|[nbr w] adj IH]; intros d q d' q' evs Hex v w' Hin.
  { by apply elem_of_nil in Hin. }
  simpl in Hex.
  destruct (d !! nbr) as [dn|] eqn:Hdn; [|done]. simpl in Hex.
  apply elem_of_cons in Hin as [[= -> ->]|Hin].
  - destruct (cltb _ dn) eqn:Hlt.
    + destruct (clo !! nbr) as [[]|] eqn:Hc; simpl in Hex; [| |done].
      * destruct (explore_mono _ _ _ _ _ _ _ _ Hex) as [_ Hmono].
        destruct (Hmono nbr dn Hdn) as (x' & Hx' & _). eauto.
      * destruct (explore heuristic clo cur adj _ _) as [[[d1 q1] evs1]|] eqn:Hex1;
          [|done].
        simpl in Hex. injection Hex as <- <- <-.
        destruct (explore_mono _ _ _ _ _ _ _ _ Hex1) as [_ Hmono].
        destruct (Hmono nbr (cadd (g cur) w)) as (x' & Hx' & Hle & _).
        { apply list_lookup_insert_eq. by eapply lookup_lt_Some. }
        eauto.
    + destruct (explore_mono _ _ _ _ _ _ _ _ Hex) as [_ Hmono].
      destruct (Hmono nbr dn Hdn) as (x' & Hx' & Hle & _).
      exists x'. split; [done|]. left. by eapply cle_trans.
  - destruct (cltb _ dn) eqn:Hlt; [|by eapply IH].
    destruct (clo !! nbr) as [[]|] eqn:Hc; simpl in Hex; [by eapply IH| |done].
    destruct (explore heuristic clo cur adj _ _) as [[[d1 q1] evs1]|] eqn:Hex1;
      [|done].
    simpl in Hex. injection Hex as <- <- <-. by eapply IH.
Qed.


(** One iteration, whatever it does: the vectors keep their length, no
    distance grows, no closed flag is taken back, and the distance of a
    closed node stays what it was. *)
Lemma step_mono (s : sstate) r evs s' :
  step G heuristic s = (r, evs) →
  r = Continue s' ∨ r = Break s' →
  length (dist s') = length (dist s) ∧
  length (closed s') = length (closed s) ∧
  (∀ v x, dist s !! v = Some x →
     ∃ x', dist s' !! v = Some x' ∧ cle x' x) ∧
  (∀ v, closed s !! v = Some true →
     closed s' !! v = Some true ∧ dist s' !! v = dist s !! v).
Proof.
  unfold step. intros Hstep Hr.
  assert (Hsame : ∀ q n m,
    s' = mkSearch q (dist s) (closed s) n m →
    length (dist s') = length (dist s) ∧
    length (closed s') = length (closed s) ∧
    (∀ v x, dist s !! v = Some x → ∃ x', dist s' !! v = Some x' ∧ cle x' x) ∧
    (∀ v, closed s !! v = Some true →
       closed s' !! v = Some true ∧ dist s' !! v = dist s !! v)).
  { intros q n m ->. simpl. split_and!; try done.
    intros v x Hv. exists x. split; [done|apply cle_refl]. }
  destruct (pq_is_empty (open s)).
  { injection Hstep as <- <-. by destruct Hr. }
  destruct (pq_top (open s)) as [cur|].
  2:{ injection Hstep as <- <-. by destruct Hr. }
  destruct (dist s !! node cur) as [dc|] eqn:Hdc.
  2:{ injection Hstep as <- <-. by destruct Hr. }
  destruct (cltb dc (g cur)).
  { injection Hstep as <- <-. destruct Hr as [[= <-]|?]; [|done].
    by eapply Hsame. }
  destruct (decide (node cur = goalNode G)).
  { injection Hstep as <- <-. destruct Hr as [?|[= <-]]; [done|].
    by eapply Hsame. }
  destruct (decide (node cur < length (closed s))) as [Hlt|].
  2:{ injection Hstep as <- <-. by destruct Hr. }
  destruct (adjacencyList G !! node cur) as [adj|].
  2:{ injection Hstep as <- <-. by destruct Hr. }
  destruct (explore heuristic _ cur adj (dist s) _) as [[[d' q'] evs']|] eqn:Hex.
  2:{ injection Hstep as <- <-. by destruct Hr. }
  injection Hstep as <- <-. destruct Hr as [[= <-]|?]; [|done]. simpl.
  destruct (explore_mono _ _ _ _ _ _ _ _ Hex) as [Hlen Hmono].
  split_and!; [done|by rewrite length_insert| |].
  - intros v x Hv. destruct (Hmono v x Hv) as (x' & ? & ? & _). eauto.
  - intros v Hv.
    assert (Hv' : <[node cur:=true]> (closed s) !! v = Some true).
    { destruct (decide (node cur = v)) as [<-|Hne].
      - by apply list_lookup_insert_eq.
      - by rewrite list_lookup_insert_ne. }
    split; [done|].
    destruct (dist s !! v) as [x|] eqn:Hx.
    + destruct (Hmono v x Hx) as (x' & -> & _ & Heq). by rewrite Heq.
    + apply lookup_ge_None in Hx. apply lookup_ge_None. lia.
Qed.

(** The same from any state to the end of the loop. *)
Lemma loop_mono fuel : ∀ (s sf : sstate) tr,
  loop G heuristic fuel s = Done (sf, tr) →
  length (dist sf) = length (dist s) ∧
  length (closed sf) = length (closed s) ∧
  (∀ v x, dist s !! v = Some x →
     ∃ x', dist sf !! v = Some x' ∧ cle x' x) ∧
  (∀ v, closed s !! v = Some true →
     closed sf !! v = Some true ∧ dist sf !! v = dist s !! v).
Proof.
  induction fuel as [|fuel IH]; intros s sf tr Hloop; [done|].
  simpl in Hloop. destruct (step G heuristic s) as [r evs] eqn:Hstep.
  destruct r as [|s'|s'|]; [| | |done].
  - injection Hloop as <- <-. split_and!; try done.
    intros v x Hv. exists x. split; [done|apply cle_refl].
  - destruct (loop G heuristic fuel s') as [[sf' tr']| |] eqn:Hl; [|done..].
    injection Hloop as <- <-.
    destruct (step_mono s _ _ s' Hstep) as (Hd & Hc & Hle & Hclo); [by left|].
    destruct (IH _ _ _ Hl) as (Hd' & Hc' & Hle' & Hclo').
    split_and!; [congruence|congruence| |].
    + intros v x Hv. destruct (Hle v x Hv) as (x1 & Hx1 & ?).
      destruct (Hle' v x1 Hx1) as (x2 & Hx2 & ?).
      exists x2. split; [done|]. by eapply cle_trans.
    + intros v Hv. destruct (Hclo v Hv) as [Hv1 Heq1].
      destruct (Hclo' v Hv1) as [Hv2 Heq2]. split; [done|congruence].
  - injection Hloop as <- <-. apply (step_mono s _ _ s' Hstep). by right.
Qed.

(** An iteration that expands [cur] marks it closed and leaves every
    neighbour either closed or at a distance of at most [cur.g + w]. *)
Lemma step_relaxed (s s' : sstate) cur evs adj :
  step G heuristic s = (Continue s', EvExpand cur :: evs) →
  adjacencyList G !! node cur = Some adj →
  pq_top (open s) = Some cur ∧
  closed s' = <[node cur := true]> (closed s) ∧
  closed s' !! node cur = Some true ∧
  explore heuristic (closed s') cur adj (dist s) (pq_pop (open s))
    = Some (dist s', open s', evs) ∧
  ∀ v w, (v, w) ∈ adj →
    ∃ x, dist s' !! v = Some x ∧
         (cle x (cadd (g cur) w) ∨ closed s' !! v = Some true).
Proof.
  unfold step. intros Hstep Hadj.
  destruct (pq_is_empty (open s)); [done|].
  destruct (pq_top (open s)) as [cur'|]; [|done].
  destruct (dist s !! node cur') as [dc|] eqn:Hdc; [|done].
  destruct (cltb dc (g cur')); [done|].
  destruct (decide (node cur' = goalNode G)); [done|].
  destruct (decide (node cur' < length (closed s))) as [Hlt|]; [|done].
  destruct (adjacencyList G !! node cur') as [adj'|] eqn:Hadj'; [|done].
  destruct (explore heuristic _ cur' adj' (dist s) _) as [[[d' q'] evs']|] eqn:Hex;
    [|done].
  injection Hstep as <- <- <-. simpl.
  assert (adj' = adj) as -> by congruence.
  split_and!; [done|done|by apply list_lookup_insert_eq|done|].
  by eapply explore_relaxed.
Qed.

End Relaxation.

(** ** Distances, queue and closed flags in every configuration *)

Lemma num_closed_replicate n : num_closed (replicate n false) = 0.
Proof. induction n as [|n IH]; [done|]. unfold num_closed in *. simpl. done. Qed.

Lemma num_closed_insert clo i :
  clo !! i = Some false → num_closed (<[i:=true]> clo) = S (num_closed clo).
Proof.
  unfold num_closed. revert i.
  induction clo as [|b clo IH]; intros [|i] Hi; try done.
  - simpl in Hi. injection Hi as ->.
    change (<[0:=true]> (false :: clo)) with (true :: clo).
    rewrite filter_cons_True by done. by rewrite filter_cons_False by done.
  - change (<[S i:=true]> (b :: clo)) with (b :: <[i:=true]> clo).
    rewrite !filter_cons. destruct (decide (b = true)); simpl; by rewrite IH.
Qed.




Section Configurations.
Context `{OrderLaws C} {PQ : Type} `{!PriorityQueue C PQ}.
Variable G : GraphData C.
Variable heuristic : nat → C.
Hypothesis Hwf : wf_graph G.
Local Abbreviation sstate := (@SearchState C PQ).

(** A distance that is not the infinity was pushed, and is the cost of a
    walk from the start. *)
Lemma finite_dist_walk (s : sstate) tr v x :
  trace_inv G s tr → dist s !! v = Some x → clt x cinf →
  walk G (startNode G) v x ∧ ∃ e, e ∈ pushes tr ∧ node e = v ∧ g e = x.
Proof.
  intros Hti Hv Hfin.
  destruct (ti_min _ _ _ Hti v x Hv) as [_ [[-> _]|(e & He & Hn & Hg)]].
  { unfold clt in Hfin. by rewrite clt_irrefl in Hfin. }
  split; [|by eauto].
  destruct (ti_push _ _ _ Hti e He) as (_ & _ & Hw). by rewrite Hn, Hg in Hw.
Qed.



(** The expansion counter against the closed flags. *)
Lemma head_num_closed (s : sstate) tr :
  at_loop_head G heuristic s tr → nodesExpanded s = num_closed (closed s).
Proof using Type* Hwf.
  induction 1 as [s0 Hinit|s tr s' evs Hhead IH Hstep].
  - unfold init_state in Hinit. destruct (decide _); [|done].
    injection Hinit as <-. simpl. by rewrite num_closed_replicate.
  - pose proof (at_loop_head_inv G heuristic Hwf _ _ Hhead) as Hinv.
    pose proof (step_case_eq G heuristic Hwf _ _ _ _ Hinv Hstep) as Hcase.
    destruct Hinv as [Hci _].
    inversion Hcase as [|cur Hperm Hmin Hstale|
                        |cur adj d' q' evs' Hperm Hmin Hlive Hg Hadj Hex]; subst;
      simpl; [done|].
    assert (Hcur : cur ∈ pq_contents (open s)) by (rewrite Hperm; left).
    rewrite num_closed_insert; [by rewrite IH|].
    by apply (ci_live_open _ _ _ _ _ Hci).
Qed.

(** The step that leaves through the [break]. *)
Lemma break_state (sf : sstate) tr :
  after_break G heuristic sf tr →
  ∃ s tr0 cur,
    at_loop_head G heuristic s tr0 ∧ tr = tr0 ++ [EvExpand cur] ∧
    cur ∈ pq_contents (open s) ∧
    pq_contents (open s) ≡ₚ cur :: pq_contents (open sf) ∧
    (∀ x, x ∈ pq_contents (open s) → cle (f cur) (f x)) ∧
    live (dist s) cur ∧ node cur = goalNode G ∧
    dist sf = dist s ∧ closed sf = closed s ∧
    nodesExpanded sf = S (nodesExpanded s) ∧ steps sf = S (steps s).
Proof using Type* Hwf.
  intros (s & tr0 & evs & Hhead & Hstep & ->).
  pose proof (at_loop_head_inv G heuristic Hwf _ _ Hhead) as Hinv.
  pose proof (step_case_eq G heuristic Hwf _ _ _ _ Hinv Hstep) as Hcase.
  inversion Hcase as [| |cur Hperm Hmin Hlive Hg|]; subst.
  exists s, tr0, cur. simpl. split_and!; try done. rewrite Hperm. left.
Qed.


End Configurations.

(** X1: over one iteration of the loop, and from any state to the end of
    the loop, the two vectors keep their length, no entry of [dist] grows,
    no closed flag is taken back, and the distance of a node that is closed
    is never written again. *)
Theorem distances_never_increase
    `{OrderLaws C} {PQ : Type} `{!PriorityQueue C PQ}
    (G : GraphData C) (heuristic : nat → C) :
  (∀ (s s' : SearchState) r evs,
     step G heuristic s = (r, evs) → r = Continue s' ∨ r = Break s' →
     improves s s') ∧
  (∀ fuel (s sf : SearchState) tr,
     loop G heuristic fuel s = Done (sf, tr) → improves s sf).
Proof.
  split.
  - intros s s' r evs Hstep Hr. by eapply step_mono.
  - intros fuel s sf tr Hloop. by eapply loop_mono.
Qed.

(** X2: the iteration that expands [cur] marks it closed, and when it is
    over every neighbour [v] of [cur] that is not closed has
    [dist[v] ≤ cur.g + w], for each adjacency entry [(v, w)] of [cur]. *)
Theorem neighbours_relaxed_after_expansion
    `{OrderLaws C} {PQ : Type} `{!PriorityQueue C PQ}
    (G : GraphData C) (heuristic : nat → C)
    (s s' : SearchState) (cur : State C) evs adj :
  step G heuristic s = (Continue s', EvExpand cur :: evs) →
  adjacencyList G !! node cur = Some adj →
  pq_top (open s) = Some cur ∧
  closed s' !! node cur = Some true ∧
  ∀ v w, (v, w) ∈ adj →
    ∃ x, dist s' !! v = Some x ∧
         (closed s' !! v = Some false → cle x (cadd (g cur) w)).
Proof.
  intros Hstep Hadj.
  destruct (step_relaxed G heuristic s s' cur evs adj Hstep Hadj)
    as (Htop & _ & Hclo & _ & Hrel).
  split_and!; [done..|]. intros v w Hin.
  destruct (Hrel v w Hin) as (x & Hx & [Hle|Hc]); exists x; split; try done.
  congruence.
Qed.

(** X3: in every configuration the loop visits, a distance that is not the
    infinity is the cost of a walk from the start to that node, so no
    distance is ever below what some walk costs; and what the search
    returns as [pathCost], whatever the heuristic, is either the sentinel
    or the cost of a walk from start to goal. *)
Theorem distances_are_walk_costs
    `{OrderLaws C} {PQ : Type} `{!PriorityQueue C PQ}
    (G : GraphData C) (heuristic : nat → C) :
  wf_graph G →
  (∀ (s : SearchState) tr v x,
     visited G heuristic s tr → dist s !! v = Some x → clt x cinf →
     walk G (startNode G) v x) ∧
  (∀ fuel r,
     search G heuristic fuel = Done r →
     res_pathCost r = cminus1 ∨
     (clt (res_pathCost r) cinf ∧
      walk G (startNode G) (goalNode G) (res_pathCost r))).
Proof.
  intros Hwf. split.
  - intros s tr v x Hti%(trace_inv_visited G heuristic Hwf) Hv Hfin.
    by apply (finite_dist_walk G s tr v x Hti).
  - intros fuel r Hsearch. unfold search in Hsearch.
    destruct (run_search G heuristic fuel) as [[sf tr]| |] eqn:Hrun; [|done..].
    pose proof (run_search_visited G heuristic Hwf _ _ _ Hrun) as Hvis.
    pose proof (trace_inv_visited G heuristic Hwf _ _ Hvis) as Hti.
    destruct (path_cost_defined G heuristic Hwf sf tr Hvis) as (dg & Hdg & Hpc).
    rewrite Hpc in Hsearch. injection Hsearch as <-. simpl.
    destruct (ceqb dg cinf) eqn:Heq; simpl; [by left|]. right.
    assert (Hfin : clt dg cinf) by (by apply clt_cinf_neq, ceqb_neq).
    split; [done|]. by apply (finite_dist_walk G sf tr _ _ Hti).
Qed.

(** X4: whenever the loop condition is evaluated, every entry of the queue
    is for a node in range and carries a [g] that is a number and is no
    less than [dist] of its node; at most one entry per node is not stale;
    an entry that is not stale is for a node that is not closed and carries
    exactly its distance; and every node that is not closed and has a
    distance other than the infinity has such an entry in the queue. *)
Theorem queue_holds_one_live_entry_per_open_node
    `{OrderLaws C} {PQ : Type} `{!PriorityQueue C PQ}
    (G : GraphData C) (heuristic : nat → C)
    (s : SearchState) (tr : list (event C)) :
  wf_graph G → at_loop_head G heuristic s tr →
  (∀ e, e ∈ pq_contents (open s) →
     node e < numNodes G ∧ clt (g e) cinf ∧
     ∃ x, dist s !! node e = Some x ∧ cle x (g e)) ∧
  NoDup (node <$> filter (live (dist s)) (pq_contents (open s))) ∧
  (∀ e, e ∈ pq_contents (open s) → live (dist s) e →
     closed s !! node e = Some false ∧ dist s !! node e = Some (g e)) ∧
  (∀ v x, dist s !! v = Some x → clt x cinf → closed s !! v = Some false →
     ∃ e, e ∈ pq_contents (open s) ∧ node e = v ∧ g e = x ∧ live (dist s) e).
Proof.
  intros Hwf Hhead.
  destruct (at_loop_head_inv G heuristic Hwf _ _ Hhead) as [Hci _].
  split_and!.
  - intros e He. pose proof (queue_pushed G _ _ _ _ _ Hci He) as Hp.
    destruct (ci_push _ _ _ _ _ Hci e Hp) as (? & ? & _).
    split_and!; [done..|]. by eapply queue_dist_le.
  - apply Hci.
  - intros e He Hl. split; [by apply (ci_live_open _ _ _ _ _ Hci)|].
    by eapply live_dist_eq.
  - intros v x Hv Hfin Hclo.
    destruct (ci_front _ _ _ _ _ Hci v x Hv Hfin Hclo) as (e & He & Hn & Hg).
    exists e. split_and!; [done..|].
    unfold live, staleb. rewrite Hn, Hv, Hg. apply clt_irrefl.
Qed.

(** X5: whenever the loop condition is evaluated, [nodesExpanded] is the
    number of closed flags that are set, the flags that are set are those
    of the nodes expanded so far, and the flag of the goal is not set.
    After the [break] the counter is one more than the number of flags:
    the goal is counted as expanded and never closed. *)
Theorem closed_flags_count_expansions
    `{OrderLaws C} {PQ : Type} `{!PriorityQueue C PQ}
    (G : GraphData C) (heuristic : nat → C) :
  wf_graph G →
  (∀ (s : SearchState) tr,
     at_loop_head G heuristic s tr →
     nodesExpanded s = num_closed (closed s) ∧
     (∀ v, closed s !! v = Some true ↔ v ∈ expanded tr) ∧
     closed s !! goalNode G = Some false) ∧
  (∀ (sf : SearchState) tr,
     after_break G heuristic sf tr →
     nodesExpanded sf = S (num_closed (closed sf)) ∧
     (∀ v, v ∈ expanded tr ↔ closed sf !! v = Some true ∨ v = goalNode G) ∧
     closed sf !! goalNode G = Some false).
Proof.
  intros Hwf. split.
  - intros s tr Hhead.
    destruct (at_loop_head_inv G heuristic Hwf _ _ Hhead) as [Hci _].
    split_and!; [by eapply head_num_closed|apply Hci|apply Hci].
  - intros sf tr Hbreak.
    destruct (break_state G heuristic Hwf sf tr Hbreak)
      as (s & tr0 & cur & Hhead & -> & _ & _ & _ & _ & Hg & _ & Hclo & Hne & _).
    destruct (at_loop_head_inv G heuristic Hwf _ _ Hhead) as [Hci _].
    rewrite Hne, Hclo, (head_num_closed G heuristic Hwf s tr0 Hhead).
    split_and!; [done| |apply Hci].
    intros v. rewrite expanded_app, elem_of_app, (ci_closed _ _ _ _ _ Hci v).
    unfold expanded. simpl. rewrite list_elem_of_singleton, Hg. done.
Qed.

(** X6: when the start node is the goal, the first entry taken from the
    queue ends the search, on every graph and with every heuristic: the
    result is [pathCost = 0], one node expanded, one step. *)
Theorem start_is_goal_costs_nothing
    `{OrderLaws C} {PQ : Type} `{!PriorityQueue C PQ}
    (G : GraphData C) (heuristic : nat → C) :
  wf_graph G → startNode G = goalNode G →
  search (PQ:=PQ) G heuristic (search_fuel G) = Done (mkResult czero 1 1).
Proof.
  intros Hwf Hsg.
  destruct (init_state_wf G heuristic Hwf) as [s0 Hs0].
  pose proof (loop_inv_init G heuristic Hwf s0 Hs0) as Hinv.
  destruct (first_step G heuristic Hwf s0 Hs0) as (r & evs & Hstep & _).
  pose proof (step_case_eq G heuristic Hwf _ _ _ _ Hinv Hstep) as Hcase.
  assert (Hd0 : dist s0 !! goalNode G = Some czero ∧
                nodesExpanded s0 = 0 ∧ steps s0 = 0).
  { unfold init_state in Hs0. destruct (decide _) as [Hlt|]; [|done].
    injection Hs0 as <-. simpl. split; [|done].
    rewrite <- Hsg. apply list_lookup_insert_eq. by rewrite length_replicate. }
  destruct Hd0 as (Hd0 & Hn0 & Hst0).
  unfold search, run_search, search_fuel. rewrite Hs0.
  replace (num_entries G + 2) with (S (num_entries G + 1)) by lia.
  cbn [loop]. rewrite Hstep.
  inversion Hcase as [| |cur Hperm Hmin Hlive Hg
                     |cur adj d' q' evs' Hperm Hmin Hlive Hg]; subst.
  2:{ by destruct Hg. }
  unfold path_cost_of. cbn [dist nodesExpanded steps]. rewrite Hd0, Hn0, Hst0.
  simpl. assert (ceqb czero cinf = false) as ->; [|done].
  apply ceqb_neq, clt_neq, czero_finite.
Qed.

(** X7: the loop does not check its indices.  With a start node outside
    [0, numNodes) the write [dist[start] = 0.0] of line 135 is out of
    range, and with a goal node outside it the read [dist[goal]] of line
    185 is: in both cases no execution returns a result. *)
Theorem endpoints_out_of_range_undefined
    `{OrderLaws C} {PQ : Type} `{!PriorityQueue C PQ}
    (G : GraphData C) (heuristic : nat → C) :
  ¬ (startNode G < numNodes G ∧ goalNode G < numNodes G) →
  (∀ fuel r, search (PQ:=PQ) G heuristic fuel ≠ Done r) ∧
  (¬ startNode G < numNodes G →
   ∀ fuel, search (PQ:=PQ) G heuristic fuel = Undefined).
Proof.
  intros Hout.
  assert (Hstart : ¬ startNode G < numNodes G →
            ∀ fuel, search (PQ:=PQ) G heuristic fuel = Undefined).
  { intros Hs fuel. unfold search, run_search, init_state.
    by rewrite decide_False. }
  split; [|done]. intros fuel r.
  destruct (decide (startNode G < numNodes G)) as [Hs|Hs];
    [|by rewrite Hstart].
  assert (Hg : numNodes G ≤ goalNode G) by lia.
  unfold search, run_search, init_state. rewrite decide_True by done.
  destruct (loop G heuristic fuel _) as [[sf tr]| |] eqn:Hloop; [|done..].
  destruct (loop_mono G heuristic fuel _ _ _ Hloop) as (Hlen & _).
  simpl in Hlen. rewrite length_insert, length_replicate in Hlen.
  unfold path_cost_of. rewrite (lookup_ge_None_2 (dist sf)) by lia. done.
Qed.

(** ** Walks *)

Lemma walk_in_range `{Cost C} (G : GraphData C) s v c :
  wf_graph G → walk G s v c → s < numNodes G → v < numNodes G.
Proof.
  intros Hwf. induction 1 as [|u v c w _ _ (adj & Hadj & Hin)]; [done|].
  intros _. by eapply (wf_nbr G Hwf).
Qed.

Lemma walk_cost_finite `{CostLaws C} (G : GraphData C) s v c :
  nonneg_weights G → walk G s v c → clt c cinf.
Proof.
  intros Hnn. induction 1 as [|u v c w _ IH Hedge]; [apply czero_finite|].
  apply cadd_finite; [done|]. by apply (Hnn u v w).
Qed.

Lemma walk_cost_nonneg `{CostLaws C} (G : GraphData C) s v c :
  nonneg_weights G → walk G s v c → cle czero c.
Proof.
  intros Hnn. induction 1 as [|u v c w _ IH Hedge]; [apply cle_refl|].
  eapply cle_trans; [done|]. apply cadd_nonneg. by apply (Hnn u v w).
Qed.

(** ** Completeness, whatever the heuristic *)

Section Complete.
Context `{CostLaws C} {PQ : Type} `{!PriorityQueue C PQ}.
Variable G : GraphData C.
Variable heuristic : nat → C.
Hypothesis Hwf : wf_graph G.
Hypothesis Hnonneg : nonneg_weights G.
Local Abbreviation sstate := (@SearchState C PQ).





End Complete.


(** X9: with non-negative weights no distance the loop stores is negative,
    and [dist[start]] is [0] in every configuration: the start is never
    relaxed again. *)
Theorem start_distance_stays_zero
    `{CostLaws C} {PQ : Type} `{!PriorityQueue C PQ}
    (G : GraphData C) (heuristic : nat → C)
    (s : SearchState) (tr : list (event C)) :
  wf_graph G → nonneg_weights G → visited G heuristic s tr →
  dist s !! startNode G = Some czero ∧
  ∀ v x, dist s !! v = Some x → cle czero x.
Proof.
  intros Hwf Hnn Hvis.
  pose proof (trace_inv_visited G heuristic Hwf _ _ Hvis) as Hti.
  assert (Hpos : ∀ v x, dist s !! v = Some x → cle czero x).
  { intros v x Hv. destruct (cle_cases x cinf (cinf_top x)) as [Hfin| ->].
    - destruct (finite_dist_walk G s tr v x Hti Hv Hfin) as [Hw _].
      exact (walk_cost_nonneg G _ _ _ Hnn Hw).
    - apply cinf_top. }
  split; [|done].
  assert (Hle : ∃ x, dist s !! startNode G = Some x ∧ cle x czero).
  { destruct Hvis as [Hhead|Hbreak].
    - destruct (at_loop_head_inv G heuristic Hwf _ _ Hhead) as [Hci _].
      apply Hci.
    - destruct (break_state G heuristic Hwf s tr Hbreak)
        as (s0 & tr0 & cur & Hhead & _ & _ & _ & _ & _ & _ & Hd & _).
      destruct (at_loop_head_inv G heuristic Hwf _ _ Hhead) as [Hci _].
      rewrite Hd. apply Hci. }
  destruct Hle as (x & Hx & Hx0). rewrite Hx. f_equal.
  apply cle_antisym; [done|]. by apply (Hpos (startNode G)).
Qed.

(** ** With a consistent heuristic: closed nodes and the order of expansion *)

Section Monotone.
Context `{CostLaws C} {PQ : Type} `{!PriorityQueue C PQ}.
Variable G : GraphData C.
Variable heuristic : nat → C.
Hypothesis Hwf : wf_graph G.
Hypothesis Hnonneg : nonneg_weights G.
Hypothesis Hcons : consistent G heuristic.
Hypothesis Hfin : finite_heuristic G heuristic.
Local Abbreviation sstate := (@SearchState C PQ).
Local Abbreviation by_f := (λ a b : State C, cle (f a) (f b)).






End Monotone.





(** ** What the reader hands over *)

Section Reader.
Context {C : Type}.
Implicit Types adj : list (list (nat * C)).

Lemma alter_snoc_elem adj i (x : nat * C) u y :
  (∃ l, alter (λ l, l ++ [x]) i adj !! u = Some l ∧ y ∈ l) ↔
  (∃ l, adj !! u = Some l ∧ y ∈ l) ∨ (u = i ∧ i < length adj ∧ y = x).
Proof.
  destruct (decide (u = i)) as [->|Hne].
  - rewrite list_lookup_alter_eq. split.
    + intros (l & Hl & Hy). destruct (adj !! i) as [l0|] eqn:Hl0;
        simpl in Hl; [|done].
      injection Hl as <-.
      apply elem_of_app in Hy as [Hy| ->%list_elem_of_singleton]; [by eauto|].
      right. split_and!; [done| |done]. by eapply lookup_lt_Some.
    + intros [(l & Hl & Hy)|(_ & Hlt & ->)].
      * rewrite Hl. simpl. eexists. split; [done|]. apply elem_of_app. by left.
      * destruct (lookup_lt_is_Some_2 adj i Hlt) as [l0 Hl0]. rewrite Hl0.
        simpl. eexists. split; [done|]. apply elem_of_app. right.
        by apply list_elem_of_singleton.
  - rewrite list_lookup_alter_ne by done. split; [by left|].
    intros [?|(? & _)]; [done|congruence].
Qed.

Lemma add_edge_elem adj u0 v0 w0 u v w :
  u0 < length adj → v0 < length adj →
  (∃ l, add_edge adj (u0, v0, w0) !! u = Some l ∧ (v, w) ∈ l) ↔
  (∃ l, adj !! u = Some l ∧ (v, w) ∈ l) ∨
  (u, v, w) = (u0, v0, w0) ∨ (v, u, w) = (u0, v0, w0).
Proof.
  intros Hu0 Hv0. unfold add_edge. rewrite !alter_snoc_elem, length_alter.
  split.
  - intros [[?|(-> & _ & [= -> ->])]|(-> & _ & [= -> ->])]; auto.
  - intros [?|[[= -> -> ->]|[= -> -> ->]]]; auto.
Qed.

Lemma foldl_add_edge_elem (edges : list (nat * nat * C)) : ∀ adj u v w,
  Forall (λ e, e.1.1 < length adj ∧ e.1.2 < length adj) edges →
  (∃ l, foldl add_edge adj edges !! u = Some l ∧ (v, w) ∈ l) ↔
  (∃ l, adj !! u = Some l ∧ (v, w) ∈ l) ∨
  (u, v, w) ∈ edges ∨ (v, u, w) ∈ edges.
Proof.
  induction edges as [|[[u0 v0] w0] edges IH]; intros adj u v w Hall.
  { simpl. split; [by left|]. intros [?|[?%elem_of_nil|?%elem_of_nil]]; done. }
  apply Forall_cons in Hall as [[Hu0 Hv0] Hall]. cbn [fst snd] in Hu0, Hv0.
  cbn [foldl]. rewrite IH by (by rewrite add_edge_length).
  rewrite add_edge_elem by done. rewrite !elem_of_cons. split.
  - intros [[?|[?|?]]|[?|?]]; auto.
  - intros [?|[[?|?]|[?|?]]]; auto.
Qed.

Lemma build_adjacency_elem n (edges : list (nat * nat * C)) u v w :
  Forall (λ e, e.1.1 < n ∧ e.1.2 < n) edges →
  (∃ l, build_adjacency n edges !! u = Some l ∧ (v, w) ∈ l) ↔
  (u, v, w) ∈ edges ∨ (v, u, w) ∈ edges.
Proof.
  intros Hall. unfold build_adjacency.
  rewrite foldl_add_edge_elem by (by rewrite length_replicate). split; [|auto].
  intros [(l & Hl & Hin)|?]; [|done].
  apply lookup_replicate in Hl as [-> _]. by apply elem_of_nil in Hin.
Qed.

Lemma read_graph_wf n coords s t (edges : list (nat * nat * C)) :
  Forall (λ e, e.1.1 < n ∧ e.1.2 < n) edges → s < n → t < n →
  wf_graph (readGraphFromFile n coords s t edges).
Proof.
  intros Hall Hs Ht.
  destruct (build_adjacency_entries n edges Hall) as [Hlen _].
  split; simpl; [done..|].
  intros u adj v w Hadj Hin.
  assert (Hel : (u, v, w) ∈ edges ∨ (v, u, w) ∈ edges).
  { apply (build_adjacency_elem n edges u v w Hall). eauto. }
  rewrite Forall_forall in Hall.
  destruct Hel as [He|He]; apply Hall in He; simpl in He; lia.
Qed.

End Reader.

Section Undirected.
Context `{Cost C}.
Variable G : GraphData C.
Hypothesis Hsym : ∀ u v w, edge G u v w → edge G v u w.

Lemma walk_trans s u v c1 c2 :
  walk G s u c1 → walk G u v c2 → ∃ c, walk G s v c.
Proof.
  intros H1. induction 1 as [|x y c w _ IH Hedge]; [by eauto|].
  destruct IH as [c' Hc']. eexists. by econstructor.
Qed.

Lemma walk_reverse s v c : walk G s v c → ∃ c', walk G v s c'.
Proof using Type* Hsym.
  induction 1 as [|u v c w _ [c' IH] Hedge]; [eexists; constructor|].
  assert (Hback : walk G v u (cadd czero w)).
  { econstructor; [constructor|]. by apply Hsym. }
  by eapply walk_trans.
Qed.

End Undirected.

(** X14: the adjacency structure built from the edge lines of a file is
    that of an undirected graph: [(v, w)] is in the vector of [u] exactly
    when the file has a line [u v w] or a line [v u w], so every edge can
    be followed both ways at the same weight, and a node can be reached
    from another exactly when that one can be reached from it. *)
Theorem read_graph_is_undirected `{Cost C}
    (n : nat) (coords : list (C * C)) (s t : nat)
    (edges : list (nat * nat * C)) :
  Forall (λ e, e.1.1 < n ∧ e.1.2 < n) edges →
  let G := readGraphFromFile n coords s t edges in
  (∀ u v w, edge G u v w ↔ (u, v, w) ∈ edges ∨ (v, u, w) ∈ edges) ∧
  (∀ u v w, edge G u v w → edge G v u w) ∧
  (∀ a b, reachable_from G a b ↔ reachable_from G b a).
Proof.
  intros Hall G.
  assert (Hchar : ∀ u v w,
            edge G u v w ↔ (u, v, w) ∈ edges ∨ (v, u, w) ∈ edges).
  { intros u v w. by apply (build_adjacency_elem n edges u v w). }
  assert (Hsym : ∀ u v w, edge G u v w → edge G v u w).
  { intros u v w. rewrite !Hchar. tauto. }
  split_and!; [done..|].
  intros a b. split; intros [c Hw]; by eapply walk_reverse.
Qed.

(** X15: for a file whose node indices are all in range, the reader hands
    over a well-formed graph with two adjacency entries per edge line; on
    it the search is defined and returns, with any heuristic, after at most
    [1 + 2 E] iterations. *)
Theorem read_graph_is_searchable
    `{OrderLaws C} {PQ : Type} `{!PriorityQueue C PQ}
    (n : nat) (coords : list (C * C)) (s t : nat)
    (edges : list (nat * nat * C)) (heuristic : nat → C) :
  Forall (λ e, e.1.1 < n ∧ e.1.2 < n) edges → s < n → t < n →
  let G := readGraphFromFile n coords s t edges in
  wf_graph G ∧
  length (adjacencyList G) = n ∧
  num_entries G = 2 * length edges ∧
  ∃ r, search (PQ:=PQ) G heuristic (2 * length edges + 2) = Done r ∧
       res_steps r ≤ 1 + 2 * length edges ∧
       res_nodesExpanded r ≤ n.
Proof.
  intros Hall Hs Ht G.
  pose proof (read_graph_wf n coords s t edges Hall Hs Ht) as Hwf.
  destruct (build_adjacency_entries n edges Hall) as [Hlen Hsum].
  assert (Hne : num_entries G = 2 * length edges) by done.
  split_and!; [done..|].
  destruct (one_run G heuristic Hwf) as (sf & tr & pc & Hrun & Hvis & Hpc).
  pose proof (trace_inv_visited G heuristic Hwf _ _ Hvis) as Hti.
  exists (mkResult pc (nodesExpanded sf) (steps sf)).
  split; [|split; cbn [res_steps res_nodesExpanded]].
  - rewrite <- Hne. by eapply search_run.
  - pose proof (pushes_bound G heuristic Hwf _ _ Hti).
    pose proof (steps_le_pushes G _ _ Hti). lia.
  - by apply (expanded_bound G _ _ Hti).
Qed.

(** ** The comparator and the heuristic of the program *)

(** X16: [CompareState] is a strict weak ordering of the queue entries,
    which is what [std::priority_queue] asks of its comparator: it is
    irreflexive, asymmetric and transitive, so is its complement, and two
    entries that it does not order either way have the same [f]. *)
Theorem CompareState_strict_weak_order `{OrderLaws C} :
  (∀ a : State C, CompareState a a = false) ∧
  (∀ a b : State C, CompareState a b = true → CompareState b a = false) ∧
  (∀ a b c : State C,
     CompareState a b = true → CompareState b c = true →
     CompareState a c = true) ∧
  (∀ a b c : State C,
     CompareState a b = false → CompareState b c = false →
     CompareState a c = false) ∧
  (∀ a b : State C,
     CompareState a b = false → CompareState b a = false → f a = f b).
Proof.
  unfold CompareState. split_and!.
  - intros a. apply clt_irrefl.
  - intros a b Hab. by apply clt_asym.
  - intros a b c Hab Hbc. by apply (clt_trans _ (f b)).
  - intros a b c Hab Hbc. by apply (cle_trans _ (f b)).
  - intros a b Hab Hba. by apply cle_antisym.
Qed.







(** ** These properties at concrete inputs *)


(** [rtriangle] after two iterations: nodes 0 and 1 are closed and the
    queue holds the goal twice, with [g = 8] and with [g = 7]. *)
Lemma rtriangle_two_steps :
  ∃ (s : SearchState (PQ:=zqueue)) tr,
    at_loop_head rtriangle rtriangle_h s tr ∧
    closed s = [true; true; false] ∧
    dist s = [ZFin 0; ZFin 3; ZFin 7] ∧
    expansions tr = [mkState 0 (ZFin 0) (ZFin 5); mkState 1 (ZFin 3) (ZFin 7)].
Proof.
  eexists _, _. split.
  - eapply head_next; [eapply head_next; [apply head_init|]|];
      vm_compute; reflexivity.
  - by vm_compute.
Defined.

(** [detour] after two iterations: the queue holds node 2 twice, the
    entry with [g = 5] being stale. *)
Lemma detour_two_steps :
  ∃ (s : SearchState (PQ:=zqueue)) tr,
    at_loop_head detour zero_h s tr ∧
    pq_contents (open s) = [mkState 2 (ZFin 2) (ZFin 2); mkState 2 (ZFin 5) (ZFin 5)] ∧
    dist s = [ZFin 0; ZFin 1; ZFin 2; ZInf].
Proof.
  eexists _, _. split.
  - eapply head_next; [eapply head_next; [apply head_init|]|];
      vm_compute; reflexivity.
  - by vm_compute.
Defined.

Lemma distances_never_increase_witness :
  (∀ (s s' : SearchState (PQ:=zqueue)) r evs,
     step detour zero_h s = (r, evs) → r = Continue s' ∨ r = Break s' →
     improves s s') ∧
  (∀ fuel (s sf : SearchState (PQ:=zqueue)) tr,
     loop detour zero_h fuel s = Done (sf, tr) → improves s sf).
Proof. exact (distances_never_increase detour zero_h). Defined.

(** The first iteration on [detour] expands node 0 and leaves its
    neighbours 1 and 2 at distances 1 and 5. *)
Lemma neighbours_relaxed_after_expansion_witness :
  ∃ (s s' : SearchState (PQ:=zqueue)) cur evs adj,
    init_state detour zero_h = Some s ∧
    step detour zero_h s = (Continue s', EvExpand cur :: evs) ∧
    adjacencyList detour !! node cur = Some adj ∧
    adj = [(1, ZFin 1); (2, ZFin 5)] ∧
    pq_top (open s) = Some cur ∧
    closed s' !! node cur = Some true ∧
    ∀ v w, (v, w) ∈ adj →
      ∃ x, dist s' !! v = Some x ∧
           (closed s' !! v = Some false → cle x (cadd (g cur) w)).
Proof.
  eexists _, _, _, _, _.
  split; [vm_compute; reflexivity|].
  split; [vm_compute; reflexivity|].
  split; [vm_compute; reflexivity|].
  split; [reflexivity|].
  eapply (neighbours_relaxed_after_expansion detour zero_h);
    vm_compute; reflexivity.
Defined.

Lemma distances_are_walk_costs_witness :
  wf_graph detour ∧
  (∀ (s : SearchState (PQ:=zqueue)) tr v x,
     visited detour zero_h s tr → dist s !! v = Some x → clt x cinf →
     walk detour (startNode detour) v x) ∧
  (∀ fuel r,
     search (PQ:=zqueue) detour zero_h fuel = Done r →
     res_pathCost r = cminus1 ∨
     (clt (res_pathCost r) cinf ∧
      walk detour (startNode detour) (goalNode detour) (res_pathCost r))).
Proof.
  split; [apply detour_wf|].
  exact (distances_are_walk_costs detour zero_h detour_wf).
Defined.

Lemma queue_holds_one_live_entry_per_open_node_witness :
  ∃ (s : SearchState (PQ:=zqueue)) tr,
    wf_graph detour ∧ at_loop_head detour zero_h s tr ∧
    pq_contents (open s)
      = [mkState 2 (ZFin 2) (ZFin 2); mkState 2 (ZFin 5) (ZFin 5)] ∧
    (∀ e, e ∈ pq_contents (open s) →
       node e < numNodes detour ∧ clt (g e) cinf ∧
       ∃ x, dist s !! node e = Some x ∧ cle x (g e)) ∧
    NoDup (node <$> filter (live (dist s)) (pq_contents (open s))) ∧
    (∀ e, e ∈ pq_contents (open s) → live (dist s) e →
       closed s !! node e = Some false ∧ dist s !! node e = Some (g e)) ∧
    (∀ v x, dist s !! v = Some x → clt x cinf → closed s !! v = Some false →
       ∃ e, e ∈ pq_contents (open s) ∧ node e = v ∧ g e = x ∧ live (dist s) e).
Proof.
  destruct detour_two_steps as (s & tr & Hhead & Hq & _).
  exists s, tr. split_and!; [apply detour_wf|done|done|..];
    apply (queue_holds_one_live_entry_per_open_node detour zero_h s tr
             detour_wf Hhead).
Defined.

Lemma closed_flags_count_expansions_witness :
  wf_graph detour ∧
  (∀ (s : SearchState (PQ:=zqueue)) tr,
     at_loop_head detour zero_h s tr →
     nodesExpanded s = num_closed (closed s) ∧
     (∀ v, closed s !! v = Some true ↔ v ∈ expanded tr) ∧
     closed s !! goalNode detour = Some false) ∧
  (∀ (sf : SearchState (PQ:=zqueue)) tr,
     after_break detour zero_h sf tr →
     nodesExpanded sf = S (num_closed (closed sf)) ∧
     (∀ v, v ∈ expanded tr ↔
           closed sf !! v = Some true ∨ v = goalNode detour) ∧
     closed sf !! goalNode detour = Some false).
Proof.
  split; [apply detour_wf|].
  exact (closed_flags_count_expansions detour zero_h detour_wf).
Defined.

Lemma start_is_goal_costs_nothing_witness :
  wf_graph lone_node ∧ startNode lone_node = goalNode lone_node ∧
  search (PQ:=zqueue) lone_node zero_h (search_fuel lone_node)
    = Done (mkResult czero 1 1).
Proof.
  split_and!; [apply lone_node_wf|reflexivity|].
  exact (start_is_goal_costs_nothing lone_node zero_h lone_node_wf eq_refl).
Defined.

Lemma stray_goal_out_of_range :
  ¬ (startNode stray_goal < numNodes stray_goal ∧
     goalNode stray_goal < numNodes stray_goal).
Proof. simpl. lia. Qed.

Lemma endpoints_out_of_range_undefined_witness :
  ¬ (startNode stray_goal < numNodes stray_goal ∧
     goalNode stray_goal < numNodes stray_goal) ∧
  (∀ fuel r, search (PQ:=zqueue) stray_goal zero_h fuel ≠ Done r) ∧
  (¬ startNode stray_goal < numNodes stray_goal →
   ∀ fuel, search (PQ:=zqueue) stray_goal zero_h fuel = Undefined).
Proof.
  split; [apply stray_goal_out_of_range|].
  exact (endpoints_out_of_range_undefined stray_goal zero_h
           stray_goal_out_of_range).
Defined.


Lemma start_distance_stays_zero_witness :
  ∃ (s : SearchState (PQ:=zqueue)) tr,
    wf_graph rtriangle ∧ nonneg_weights rtriangle ∧
    visited rtriangle rtriangle_h s tr ∧
    dist s = [ZFin 0; ZFin 3; ZFin 7] ∧
    dist s !! startNode rtriangle = Some czero ∧
    ∀ v x, dist s !! v = Some x → cle czero x.
Proof.
  destruct rtriangle_two_steps as (s & tr & Hhead & _ & Hd & _).
  exists s, tr.
  split_and!; [apply rtriangle_wf|apply rtriangle_nonneg|by left|done|..];
    apply (start_distance_stays_zero rtriangle rtriangle_h s tr rtriangle_wf
             rtriangle_nonneg (or_introl Hhead)).
Defined.





Lemma rtriangle_edges_in_range :
  Forall (λ e : nat * nat * zcost, e.1.1 < 3 ∧ e.1.2 < 3)
    [(0, 1, ZFin 3); (1, 2, ZFin 4); (0, 2, ZFin 8)].
Proof. repeat constructor; simpl; lia. Qed.

Lemma read_graph_is_undirected_witness :
  Forall (λ e : nat * nat * zcost, e.1.1 < 3 ∧ e.1.2 < 3)
    [(0, 1, ZFin 3); (1, 2, ZFin 4); (0, 2, ZFin 8)] ∧
  let G := readGraphFromFile 3
             [(ZFin 0, ZFin 0); (ZFin 3, ZFin 0); (ZFin 3, ZFin 4)] 0 2
             [(0, 1, ZFin 3); (1, 2, ZFin 4); (0, 2, ZFin 8)] in
  G = rtriangle ∧
  (∀ u v w, edge G u v w ↔
     (u, v, w) ∈ [(0, 1, ZFin 3); (1, 2, ZFin 4); (0, 2, ZFin 8)] ∨
     (v, u, w) ∈ [(0, 1, ZFin 3); (1, 2, ZFin 4); (0, 2, ZFin 8)]) ∧
  (∀ u v w, edge G u v w → edge G v u w) ∧
  (∀ a b, reachable_from G a b ↔ reachable_from G b a).
Proof.
  split; [apply rtriangle_edges_in_range|]. split; [reflexivity|].
  exact (read_graph_is_undirected 3 _ 0 2 _ rtriangle_edges_in_range).
Defined.

Lemma read_graph_is_searchable_witness :
  Forall (λ e : nat * nat * zcost, e.1.1 < 3 ∧ e.1.2 < 3)
    [(0, 1, ZFin 3); (1, 2, ZFin 4); (0, 2, ZFin 8)] ∧
  0 < 3 ∧ 2 < 3 ∧
  let G := readGraphFromFile 3
             [(ZFin 0, ZFin 0); (ZFin 3, ZFin 0); (ZFin 3, ZFin 4)] 0 2
             [(0, 1, ZFin 3); (1, 2, ZFin 4); (0, 2, ZFin 8)] in
  wf_graph G ∧
  length (adjacencyList G) = 3 ∧
  num_entries G = 2 * 3 ∧
  ∃ r, search (PQ:=zqueue) G rtriangle_h (2 * 3 + 2) = Done r ∧
       res_steps r ≤ 1 + 2 * 3 ∧
       res_nodesExpanded r ≤ 3.
Proof.
  split; [apply rtriangle_edges_in_range|]. split; [lia|]. split; [lia|].
  exact (read_graph_is_searchable (PQ:=zqueue) 3 _ 0 2 _ rtriangle_h
           rtriangle_edges_in_range (Nat.lt_0_succ 2) (Nat.lt_succ_diag_r 2)).
Defined.

Lemma CompareState_strict_weak_order_witness :
  (∀ a : State zcost, CompareState a a = false) ∧
  (∀ a b : State zcost, CompareState a b = true → CompareState b a = false) ∧
  (∀ a b c : State zcost,
     CompareState a b = true → CompareState b c = true →
     CompareState a c = true) ∧
  (∀ a b c : State zcost,
     CompareState a b = false → CompareState b c = false →
     CompareState a c = false) ∧
  (∀ a b : State zcost,
     CompareState a b = false → CompareState b a = false → f a = f b).
Proof. exact (CompareState_strict_weak_order (C:=zcost)). Defined.



